(** * LibBi: group membership of a tree node and the SMC^2 outer sampler

    A shallow embedding of
    - [share/src/bi/mpi/TreeNetworkNode.cpp] (module [TreeNetworkNode]) and
    - [share/src/bi/sampler/MarginalSIR.hpp] (module [MarginalSIR]),
    with the properties the specification states about them. *)

From Stdlib Require Import Reals Lra.
From stdpp Require Import base option list sets gmap.
From Stdlib Require Import ZArith Lia.

(** ** A result type for the partial operations *)

(** Reading or writing a vector outside its bounds, dereferencing an
    iterator outside its schedule, and erasing from a container a range of
    another one, have no defined behaviour: the model stops with
    [Undefined].  [OutOfFuel] is the answer of a loop that was given too
    few iterations to finish. *)
Inductive result (A : Type) : Type :=
| Ok (a : A)
| Undefined
| OutOfFuel.
Arguments Ok {A} a.
Arguments Undefined {A}.
Arguments OutOfFuel {A}.

#[global] Instance result_bind : MBind result := λ A B k m,
  match m with
  | Ok a => k a
  | Undefined => Undefined
  | OutOfFuel => OutOfFuel
  end.

#[global] Instance result_ret : MRet result := λ A a, Ok a.

#[global] Instance result_fmap : FMap result := λ A B f m,
  match m with
  | Ok a => Ok (f a)
  | Undefined => Undefined
  | OutOfFuel => OutOfFuel
  end.

(** The value of an access that is defined within the bounds only. *)
Definition defined {A : Type} (o : option A) : result A :=
  match o with Some a => Ok a | None => Undefined end.

(** [v(i) = x] on a vector: defined within the bounds only. *)
Definition assign {A : Type} (v : list A) (i : nat) (x : A) : result (list A) :=
  if decide (i < length v) then Ok (<[i:=x]> v) else Undefined.

(** [for (p ...)] over the indices [ps], in list order. *)
Fixpoint for_each {St : Type} (body : nat → St → result St) (ps : list nat)
    (st : St) : result St :=
  match ps with
  | [] => Ok st
  | p :: ps => st' ← body p st; for_each body ps st'
  end.

(** [for (int p = 0; p < n; ++p)] *)
Definition for_loop {St : Type} (n : nat) (body : nat → St → result St)
    (st : St) : result St :=
  for_each body (seq 0 n) st.

(** ** TreeNetworkNode *)

Module TreeNetworkNode.

Section Node.
(** [MPI_Comm] is an opaque handle; the node only needs to store it in
    ordered sets, so any countable type with decidable equality does. *)
Context {MPI_Comm : Type} `{Countable MPI_Comm}.

(** Modelled from the spec: the header [TreeNetworkNode.hpp], which declares
    the three containers, is not part of the sources.  The specification
    describes them as sets of links ([active], [pendingAdd],
    [pendingRemove]), and the member functions called on them are those of a
    [std::set]; they are finite sets here.  On them [insert(x)] is
    [{[x]} ∪ _], the range insert [insert(first, last)] is the union,
    [clear()] is [∅] and [size()] is [size]. *)
Record TreeNetworkNode : Type := mkNode {
  parent   : option MPI_Comm;   (* [None] is [MPI_COMM_NULL] *)
  comms    : gset MPI_Comm;
  newcomms : gset MPI_Comm;
  oldcomms : gset MPI_Comm
}.

(** The constructor: [parent(MPI_COMM_NULL)], containers default-constructed. *)
Definition create : TreeNetworkNode :=
  {| parent := None; comms := ∅; newcomms := ∅; oldcomms := ∅ |}.

Definition setParent (comm : MPI_Comm) (nd : TreeNetworkNode) : TreeNetworkNode :=
  {| parent := Some comm; comms := comms nd;
     newcomms := newcomms nd; oldcomms := oldcomms nd |}.

(** [addChild]: the body of the critical region, then [return n]. *)
Definition addChild (comm : MPI_Comm) (nd : TreeNetworkNode) : Z * TreeNetworkNode :=
  let n := (Z.of_nat (size (comms nd)) + Z.of_nat (size (newcomms nd)))%Z in
  (n, {| parent := parent nd; comms := comms nd;
         newcomms := {[comm]} ∪ newcomms nd; oldcomms := oldcomms nd |}).

Definition removeChild (comm : MPI_Comm) (nd : TreeNetworkNode) : TreeNetworkNode :=
  {| parent := parent nd; comms := comms nd;
     newcomms := newcomms nd; oldcomms := {[comm]} ∪ oldcomms nd |}.

(** [c.erase(first, last)] erases a range of [c] itself.  Here it is called
    with [from.begin()] and [from.end()], the iterators of another
    container: they do not point into [c], and erasing the elements between
    them has no defined behaviour.  When [from] is empty the two iterators
    are equal, no element lies between them and nothing is erased. *)
Definition erase_range_of (from c : gset MPI_Comm) : result (gset MPI_Comm) :=
  if decide (from = ∅) then Ok c else Undefined.

(** [updateChildren], statement by statement. *)
Definition updateChildren (nd : TreeNetworkNode) : result (Z * TreeNetworkNode) :=
  let comms1 := comms nd ∪ newcomms nd in       (* comms.insert(newcomms...) *)
  let newcomms1 : gset MPI_Comm := ∅ in         (* newcomms.clear()          *)
  comms2 ← erase_range_of (oldcomms nd) comms1; (* comms.erase(oldcomms...)  *)
  let oldcomms1 : gset MPI_Comm := ∅ in         (* oldcomms.clear()          *)
  let n := Z.of_nat (size comms2) in            (* n = comms.size()          *)
  Ok (n, {| parent := parent nd; comms := comms2;
            newcomms := newcomms1; oldcomms := oldcomms1 |}).

(** The two post-conditions [BI_ASSERT]ed at the end of [updateChildren]. *)
Definition post_conditions (nd : TreeNetworkNode) : bool :=
  bool_decide (size (newcomms nd) = 0) && bool_decide (size (oldcomms nd) = 0).

(** A call made on the node before a commit. *)
Inductive call : Type :=
| AddChild (comm : MPI_Comm)
| RemoveChild (comm : MPI_Comm).

Definition run_call (c : call) (nd : TreeNetworkNode) : TreeNetworkNode :=
  match c with
  | AddChild comm => snd (addChild comm nd)
  | RemoveChild comm => removeChild comm nd
  end.

(** The calls are made in list order, the head first. *)
Definition run_calls (cs : list call) (nd : TreeNetworkNode) : TreeNetworkNode :=
  foldl (fun nd c => run_call c nd) nd cs.

(** All links ever added, and all links ever removed, by a sequence of calls. *)
Fixpoint added (cs : list call) : gset MPI_Comm :=
  match cs with
  | [] => ∅
  | AddChild comm :: cs => {[comm]} ∪ added cs
  | RemoveChild _ :: cs => added cs
  end.

Fixpoint removed (cs : list call) : gset MPI_Comm :=
  match cs with
  | [] => ∅
  | AddChild _ :: cs => removed cs
  | RemoveChild comm :: cs => {[comm]} ∪ removed cs
  end.

End Node.

Arguments TreeNetworkNode MPI_Comm {_ _}.
Arguments call MPI_Comm : clear implicits.

End TreeNetworkNode.

(** ** Double-precision values *)

(** A [double] is modelled by its IEEE-754 class: a NaN, one of the two
    infinities, or a finite value, which is carried as an exact real.  The
    special values follow IEEE-754; the rounding (and overflow) of finite
    results and the sign of zero are not modelled. *)
Inductive double : Type :=
| Fin (x : R)
| PInf
| NInf
| NaN.

(** Modelled from the spec: the macro [BI_INF] and [bi::is_finite] are
    declared in headers that are not part of the sources; the specification
    reads them as infinity ("proposed likelihood = -infinity") and as the
    test for a finite value, which an infinity and a NaN both fail. *)
Definition BI_INF : double := PInf.

Definition is_finite (d : double) : bool :=
  match d with Fin _ => true | _ => false end.

(** unary minus *)
Definition dneg (d : double) : double :=
  match d with
  | Fin x => Fin (- x)
  | PInf => NInf
  | NInf => PInf
  | NaN => NaN
  end.

(** [a + b] *)
Definition dadd (a b : double) : double :=
  match a, b with
  | NaN, _ | _, NaN => NaN
  | Fin x, Fin y => Fin (x + y)
  | PInf, NInf | NInf, PInf => NaN
  | PInf, _ | _, PInf => PInf
  | NInf, _ | _, NInf => NInf
  end.

(** [a - b] *)
Definition dsub (a b : double) : double := dadd a (dneg b).

(** [a / b]; a zero divisor is the positive zero (the only zero divisor
    the sampler produces is the conversion of the [int] 0). *)
Definition ddiv (a b : double) : double :=
  match a, b with
  | NaN, _ | _, NaN => NaN
  | Fin x, Fin y =>
      if Req_dec_T y 0 then
        if Req_dec_T x 0 then NaN
        else if Rlt_dec 0 x then PInf else NInf
      else Fin (x / y)
  | Fin _, (PInf | NInf) => Fin 0
  | (PInf | NInf), Fin y => if Rlt_dec y 0 then dneg a else a
  | (PInf | NInf), (PInf | NInf) => NaN
  end.

(** [a < b]: false as soon as one side is a NaN. *)
Definition dlt (a b : double) : bool :=
  match a, b with
  | NaN, _ | _, NaN => false
  | Fin x, Fin y => if Rlt_dec x y then true else false
  | _, NInf | PInf, _ => false
  | NInf, (Fin _ | PInf) | Fin _, PInf => true
  end.

(** [a <= b] *)
Definition dle (a b : double) : bool :=
  match a, b with
  | NaN, _ | _, NaN => false
  | Fin x, Fin y => if Rle_dec x y then true else false
  | NInf, _ | _, PInf => true
  | (Fin _ | PInf), NInf | PInf, Fin _ => false
  end.

(** The conversion [double(n)] of an [int]. *)
Definition double_of_int (n : Z) : double := Fin (IZR n).

(** Modelled from the spec: [bi::log] is declared in a header that is not
    part of the sources; the specification writes it [log], the natural
    logarithm, here with the special values of the C library function. *)
Definition dlog (a : double) : double :=
  match a with
  | Fin x =>
      if Rlt_dec 0 x then Fin (ln x)
      else if Req_dec_T x 0 then NInf else NaN
  | PInf => PInf
  | _ => NaN
  end.

(** The exponential, with its special values. *)
Definition dexp (a : double) : double :=
  match a with
  | Fin x => Fin (exp x)
  | PInf => PInf
  | NInf => Fin 0
  | NaN => NaN
  end.

(** Modelled from the spec: [logsumexp_reduce] is declared in
    [primitive/vector_primitive.hpp], which is not part of the sources; the
    specification names it [logsumexp(logWeights)], the logarithm of the sum
    of the exponentials of the elements. *)
Definition logsumexp_reduce (x : list double) : double :=
  dlog (foldl dadd (Fin 0) (dexp <$> x)).

Declare Scope double_scope.
Delimit Scope double_scope with D.
Bind Scope double_scope with double.
Infix "+" := dadd : double_scope.
Infix "-" := dsub : double_scope.
Infix "/" := ddiv : double_scope.
Infix "<?" := dlt : double_scope.
Infix "<=?" := dle : double_scope.

(** ** MarginalSIR: the data *)

(** An element of the time schedule. *)
Record ScheduleElement : Type := {
  getTime     : double;
  indexOutput : Z;
  indexObs    : nat;
  isObserved  : bool
}.

(** The two exceptions [rejuvenate] catches. *)
Inductive exception : Type :=
| CholeskyException
| ParticleFilterDegeneratedException.

(** The state [s1] of one theta-particle: what [MarginalSIR] reads and writes
    of it, and the rest ([payload]), which only the filter looks at. *)
Module S1.
Record t (X : Type) : Type := mk {
  logLikelihood : double;
  logPrior      : double;
  logProposal   : double;
  logIncrements : list double;
  payload       : X
}.
Arguments mk {X}.
Arguments logLikelihood {X}.
Arguments logPrior {X}.
Arguments logProposal {X}.
Arguments logIncrements {X}.
Arguments payload {X}.

(** [s.logLikelihood = l] *)
Definition set_logLikelihood {X : Type} (l : double) (s : t X) : t X :=
  mk l (logPrior s) (logProposal s) (logIncrements s) (payload s).
End S1.

(** The population [s] of theta-particles.  [s1s] and [out1s] hold the
    per-particle states and output buffers ([*s.s1s[p]], [*s.out1s[p]]);
    [s2] and [out2] are the single scratch slot. *)
Module State.
Record t (X Out : Type) : Type := mk {
  size          : nat;
  s1s           : list (S1.t X);
  out1s         : list Out;
  s2            : S1.t X;
  out2          : Out;
  logWeights    : list double;
  ancestors     : list Z;
  ess           : double;
  logLikelihood : double;
  logIncrements : list double
}.
Arguments mk {X Out}.
Arguments size {X Out}.
Arguments s1s {X Out}.
Arguments out1s {X Out}.
Arguments s2 {X Out}.
Arguments out2 {X Out}.
Arguments logWeights {X Out}.
Arguments ancestors {X Out}.
Arguments ess {X Out}.
Arguments logLikelihood {X Out}.
Arguments logIncrements {X Out}.

Section Update.
Context {X Out : Type}.
Implicit Type s : t X Out.

(** [*s.s1s[p]] and [*s.out1s[p]] are written together. *)
Definition set_particle (p : nat) (s1 : S1.t X) (out1 : Out) s : t X Out :=
  mk (size s) (<[p:=s1]> (s1s s)) (<[p:=out1]> (out1s s)) (s2 s) (out2 s)
     (logWeights s) (ancestors s) (ess s) (logLikelihood s) (logIncrements s).

Definition set_scratch (s2' : S1.t X) (out2' : Out) s : t X Out :=
  mk (size s) (s1s s) (out1s s) s2' out2'
     (logWeights s) (ancestors s) (ess s) (logLikelihood s) (logIncrements s).

Definition set_logWeights (lws : list double) s : t X Out :=
  mk (size s) (s1s s) (out1s s) (s2 s) (out2 s)
     lws (ancestors s) (ess s) (logLikelihood s) (logIncrements s).

Definition set_ancestors (a : list Z) s : t X Out :=
  mk (size s) (s1s s) (out1s s) (s2 s) (out2 s)
     (logWeights s) a (ess s) (logLikelihood s) (logIncrements s).

Definition set_ess (e : double) s : t X Out :=
  mk (size s) (s1s s) (out1s s) (s2 s) (out2 s)
     (logWeights s) (ancestors s) e (logLikelihood s) (logIncrements s).

Definition set_logLikelihood (l : double) s : t X Out :=
  mk (size s) (s1s s) (out1s s) (s2 s) (out2 s)
     (logWeights s) (ancestors s) (ess s) l (logIncrements s).

Definition set_logIncrements (incs : list double) s : t X Out :=
  mk (size s) (s1s s) (out1s s) (s2 s) (out2 s)
     (logWeights s) (ancestors s) (ess s) (logLikelihood s) incs.

(** All the per-particle vectors have [size] elements. *)
Definition wf s : Prop :=
  length (s1s s) = size s ∧ length (out1s s) = size s
  ∧ length (logWeights s) = size s ∧ length (ancestors s) = size s.
End Update.
End State.

(** *** The collaborators

    The template parameters [F], [A] and [R] of [MarginalSIR], the random
    number generator and the output are used through their member functions
    only.  Each is a record of functions; an argument passed by reference and
    written by the callee is returned.  The schedule iterators are positions
    in the schedule. *)

Module Random.
Record ops (Random : Type) : Type := {
  uniform : Random → double * Random      (* [rng.uniform<double>()] *)
}.
Arguments uniform {Random}.
End Random.

Module Filter.
Record ops (Random X Out In A : Type) : Type := {
  init : Random → ScheduleElement → S1.t X → Out → In → Random * S1.t X * Out;
  output0 : S1.t X → Out → Out;
  correct : Random → ScheduleElement → S1.t X → Random * S1.t X;
  output : ScheduleElement → S1.t X → Out → Out;
  (* [step(rng, iter, last, s1, out1)] advances [iter] *)
  step : Random → nat → nat → S1.t X → Out → Random * nat * S1.t X * Out;
  (* [propose(rng, now, s1, s2, out2[, adapter])]; the first component is
     the exception thrown, if one is *)
  propose : Random → ScheduleElement → S1.t X → S1.t X → Out → option A →
            option exception * (Random * S1.t X * S1.t X * Out);
  (* [filter(rng, first, last, s2, out2)] *)
  filter : Random → nat → nat → S1.t X → Out →
           option exception * (Random * S1.t X * Out);
  samplePath : Random → S1.t X → Out → Random * S1.t X * Out
}.
Arguments init {Random X Out In A}.
Arguments output0 {Random X Out In A}.
Arguments correct {Random X Out In A}.
Arguments output {Random X Out In A}.
Arguments step {Random X Out In A}.
Arguments propose {Random X Out In A}.
Arguments filter {Random X Out In A}.
Arguments samplePath {Random X Out In A}.
End Filter.

Module Adapter.
Record ops (X Out A : Type) : Type := {
  clear : A → A;
  add : State.t X Out → A → A;
  ready : A → bool;
  adapt : A → A
}.
Arguments clear {X Out A}.
Arguments add {X Out A}.
Arguments ready {X Out A}.
Arguments adapt {X Out A}.
End Adapter.

Module Resampler.
Record ops (Random X Out : Type) : Type := {
  resample : Random → ScheduleElement → State.t X Out →
             bool * Random * State.t X Out
}.
Arguments resample {Random X Out}.
End Resampler.

Module Output.
Record ops (X Out IO1 : Type) : Type := {
  clear : IO1 → IO1;
  write : State.t X Out → IO1 → IO1
}.
Arguments clear {X Out IO1}.
Arguments write {X Out IO1}.
End Output.

(** A line written on [std::cerr] by [report] or [reportT]. *)
Inductive Line : Type :=
| Progress (index : Z) (time : double) (ess : double) (rate : option double)
| Finished (index : Z) (time : double).

(** A call of a member function of the filter, with the particle it was made
    for.  The calls are recorded, in order, next to the generator. *)
Inductive Call : Type :=
| CallInit (p : nat)
| CallOutput0 (p : nat)
| CallCorrect (p : nat)
| CallOutput (p : nat)
| CallStep (p : nat)
| CallPropose (p : nat)
| CallFilter (p : nat)
| CallSamplePath (p : nat).

(** What the member functions share besides the population: the generator
    [rng], the lines on [std::cerr] and the record of the filter's calls. *)
Module World.
Record t (Random : Type) : Type := mk {
  rng   : Random;
  cerr  : list Line;
  calls : list Call
}.
Arguments mk {Random}.
Arguments rng {Random}.
Arguments cerr {Random}.
Arguments calls {Random}.

Definition set_rng {Random : Type} (r : Random) (w : t Random) : t Random :=
  mk r (cerr w) (calls w).
Definition print {Random : Type} (l : Line) (w : t Random) : t Random :=
  mk (rng w) (cerr w ++ [l]) (calls w).
Definition called {Random : Type} (c : list Call) (w : t Random) : t Random :=
  mk (rng w) (cerr w) (calls w ++ c).
End World.

(** The members of a [MarginalSIR] object that change: the adapter it refers
    to, and its own [nmoves], [lastResample] and [lastAcceptRate].  The
    [int]s of the class ([nmoves], the counters [naccept] and [ntotal]) are
    integers here, without a bound.  The overflow of an [int] has no
    defined behaviour: what is stated of the value of the product
    [ntotal = nmoves * s.size()] is stated for products of at most
    [INT_MAX]. *)
Module Sampler.
Record t (A : Type) : Type := mk {
  adapter        : A;
  nmoves         : Z;
  lastResample   : bool;
  lastAcceptRate : double
}.
Arguments mk {A}.
Arguments adapter {A}.
Arguments nmoves {A}.
Arguments lastResample {A}.
Arguments lastAcceptRate {A}.
End Sampler.

(** The largest [int], 32 bits wide.  A count is the [int] of the code as
    long as it is at most this. *)
Definition INT_MAX : Z := 2147483647.

(** ** MarginalSIR: the member functions

    The class is read as it compiles without [ENABLE_MPI] (one process, rank
    0) and with [ENABLE_DIAGNOSTICS] other than 3. *)

Module MarginalSIR.

Section MarginalSIR.
Context {Random X Out In A IO1 : Type}.

(** The schedule the iterators [first], [iter] and [last] point into. *)
Variable sched : list ScheduleElement.

Variable rand : Random.ops Random.
Variable filter : Filter.ops Random X Out In A.
Variable adapter : Adapter.ops X Out A.
Variable resam : Resampler.ops Random X Out.
Variable output : Output.ops X Out IO1.

(** [ess_reduce(lws, &lW)] is declared in a header that is not part of the
    sources: it is a parameter, returning the effective sample size and the
    combined log-weight [lW]. *)
Variable ess_reduce : list double → double * double.

Abbreviation World := (World.t Random).
Abbreviation Sampler := (Sampler.t A).
Abbreviation State := (State.t X Out).
Abbreviation S1 := (S1.t X).

(** The constructor. *)
Definition create (ad : A) (nmoves : Z) : Sampler :=
  Sampler.mk ad nmoves false (Fin 0).

(** *** init *)

(** The four calls of the filter that [init] makes for one particle, on
    its state [s1] and output buffer [out1]. *)
Definition init_calls (now : ScheduleElement) (inInit : In) (r : Random)
    (s1 : S1) (out1 : Out) : Random * S1 * Out :=
  let '(r, s1, out1) := Filter.init filter r now s1 out1 inInit in
  let out1 := Filter.output0 filter s1 out1 in
  let '(r, s1) := Filter.correct filter r now s1 in
  let out1 := Filter.output filter now s1 out1 in
  (r, s1, out1).

(** The body of the loop of [init] for particle [p]. *)
Definition init_particle (first : nat) (inInit : In) (p : nat)
    (ws : World * State) : result (World * State) :=
  let '(w, s) := ws in
  s1 ← defined (State.s1s s !! p);
  out1 ← defined (State.out1s s !! p);
  now ← defined (sched !! first);
  let '(r, s1, out1) := init_calls now inInit (World.rng w) s1 out1 in
  lws ← assign (State.logWeights s) p (S1.logLikelihood s1);
  anc ← assign (State.ancestors s) p (Z.of_nat p);
  Ok (World.called [CallInit p; CallOutput0 p; CallCorrect p; CallOutput p]
        (World.set_rng r w),
      State.set_ancestors anc
        (State.set_logWeights lws (State.set_particle p s1 out1 s))).

(** The loop of [init], the particles taken in the order [ps]. *)
Definition init_particles (first : nat) (inInit : In) (ps : list nat)
    (ws : World * State) : result (World * State) :=
  for_each (init_particle first inInit) ps ws.

Definition init (first : nat) (inInit : In)
    (c : World * Sampler * State * IO1) : result (World * Sampler * State * IO1) :=
  let '(w, m, s, out) := c in
  '(w, s) ← init_particles first inInit (seq 0 (State.size s)) (w, s);
  let out := Output.clear output out in
  Ok (w, Sampler.mk (Sampler.adapter m) (Sampler.nmoves m) false (Fin 0), s, out).

(** *** adapt, resample, report *)

Definition adapt (s : State) (m : Sampler) : Sampler :=
  let ad := Adapter.clear adapter (Sampler.adapter m) in
  let ad := Adapter.add adapter s ad in
  let ad := if Adapter.ready adapter ad then Adapter.adapt adapter ad else ad in
  Sampler.mk ad (Sampler.nmoves m) (Sampler.lastResample m)
    (Sampler.lastAcceptRate m).

Definition resample (now : ScheduleElement) (c : World * Sampler * State) :
    World * Sampler * State :=
  let '(w, m, s) := c in
  let '(b, r, s) := Resampler.resample resam (World.rng w) now s in
  (World.set_rng r w,
   Sampler.mk (Sampler.adapter m) (Sampler.nmoves m) b (Sampler.lastAcceptRate m),
   s).

Definition report (now : ScheduleElement) (m : Sampler) (s : State)
    (w : World) : World :=
  World.print
    (Progress (indexOutput now) (getTime now) (State.ess s)
       (if Sampler.lastResample m then Some (Sampler.lastAcceptRate m) else None))
    w.

Definition reportT (now : ScheduleElement) (w : World) : World :=
  World.print (Finished (indexOutput now) (getTime now)) w.

Definition outputT (s : State) (out : IO1) : IO1 := Output.write output s out.

(** *** rejuvenate *)

(** The [try] block of one move for particle [p]: the proposal, and the
    filter run on it when its prior is finite.  Both exceptions set the
    log-likelihood of the proposal to [-BI_INF]. *)
Definition propose_replacement (first last : nat) (ready : bool) (ad : A)
    (p : nat) (ws : World * State) : result (World * State) :=
  let '(w, s) := ws in
  s1 ← defined (State.s1s s !! p);
  out1 ← defined (State.out1s s !! p);
  now ← defined (sched !! first);
  let '(e, (r, s1, s2, out2)) :=
    Filter.propose filter (World.rng w) now s1 (State.s2 s) (State.out2 s)
      (if ready then Some ad else None) in
  let w := World.called [CallPropose p] (World.set_rng r w) in
  let s := State.set_particle p s1 out1 s in
  match e with
  | Some _ =>
      Ok (w, State.set_scratch (S1.set_logLikelihood (dneg BI_INF) s2) out2 s)
  | None =>
      if is_finite (S1.logPrior s2) then
        let '(e, (r, s2, out2)) := Filter.filter filter r first last s2 out2 in
        let w := World.called [CallFilter p] (World.set_rng r w) in
        match e with
        | Some _ =>
            Ok (w, State.set_scratch (S1.set_logLikelihood (dneg BI_INF) s2) out2 s)
        | None => Ok (w, State.set_scratch s2 out2 s)
        end
      else Ok (w, State.set_scratch s2 out2 s)
  end.

(** The decision [accept] of one move, from the current state [s1] and the
    proposal [s2]; the generator is used in the last case only. *)
Definition accept_or_reject (s1 s2 : S1) (r : Random) : bool * Random :=
  if negb (is_finite (S1.logLikelihood s2)) then (false, r)
  else if negb (is_finite (S1.logLikelihood s1)) then (true, r)
  else
    let loglr := (S1.logLikelihood s2 - S1.logLikelihood s1)%D in
    let logpr := (S1.logPrior s2 - S1.logPrior s1)%D in
    let logqr := (S1.logProposal s1 - S1.logProposal s2)%D in
    let logqr :=
      if negb (is_finite (S1.logProposal s1))
         && negb (is_finite (S1.logProposal s2))
      then Fin 0 else logqr in
    let logratio := (loglr + logpr + logqr)%D in
    let '(u, r) := Random.uniform rand r in
    ((dlog u <? logratio)%D, r).

(** The second half of one move: the decision, and on acceptance the swap
    of the particle's state and output with the scratch slot. *)
Definition accept_move (p : nat) (st : World * State * Z) :
    result (World * State * Z) :=
  let '(w, s, naccept) := st in
  s1 ← defined (State.s1s s !! p);
  out1 ← defined (State.out1s s !! p);
  let '(accept, r) := accept_or_reject s1 (State.s2 s) (World.rng w) in
  let w := World.set_rng r w in
  if accept then
    Ok (w, State.set_scratch s1 out1 (State.set_particle p (State.s2 s) (State.out2 s) s),
        (naccept + 1)%Z)
  else Ok (w, s, naccept).

(** One iteration of the loop over the moves. *)
Definition move (first last : nat) (ready : bool) (ad : A) (p : nat)
    (st : World * State * Z) : result (World * State * Z) :=
  let '(w, s, naccept) := st in
  '(w, s) ← propose_replacement first last ready ad p (w, s);
  accept_move p (w, s, naccept).

(** One iteration of the loop over the particles: the references [s1] and
    [out1] are taken, then [nmoves] moves are made. *)
Definition rejuvenate_particle (first last : nat) (ready : bool) (ad : A)
    (nmoves : Z) (p : nat) (st : World * State * Z) : result (World * State * Z) :=
  let '(w, s, naccept) := st in
  _ ← defined (State.s1s s !! p);
  _ ← defined (State.out1s s !! p);
  for_loop (Z.to_nat nmoves) (λ _, move first last ready ad p) (w, s, naccept).

Definition rejuvenate (first last : nat) (c : World * Sampler * State) :
    result (World * Sampler * State) :=
  let '(w, m, s) := c in
  if Sampler.lastResample m then
    let naccept := 0%Z in
    let ready := Adapter.ready adapter (Sampler.adapter m) in
    '(w, s, naccept) ←
      for_loop (State.size s)
        (rejuvenate_particle first last ready (Sampler.adapter m) (Sampler.nmoves m))
        (w, s, naccept);
    let ntotal := (Sampler.nmoves m * Z.of_nat (State.size s))%Z in
    Ok (w,
        Sampler.mk (Sampler.adapter m) (Sampler.nmoves m) (Sampler.lastResample m)
          (double_of_int naccept / double_of_int ntotal)%D,
        s)
  else Ok (w, m, s).

(** *** step *)

(** The body of the inner loop of [step] for particle [p]: [iter1] is set to
    [iter], the filter advances it, and the increment the filter recorded at
    the observation index of the new position is added to the particle's
    log-weight.  The third component is [iter1]. *)
Definition advance_particle (iter last : nat) (p : nat)
    (st : World * State * option nat) : result (World * State * option nat) :=
  let '(w, s, _) := st in
  s1 ← defined (State.s1s s !! p);
  out1 ← defined (State.out1s s !! p);
  let iter1 := iter in
  let '(r, iter1, s1, out1) := Filter.step filter (World.rng w) iter1 last s1 out1 in
  now1 ← defined (sched !! iter1);
  inc ← defined (S1.logIncrements s1 !! indexObs now1);
  lw ← defined (State.logWeights s !! p);
  lws ← assign (State.logWeights s) p (lw + inc)%D;
  Ok (World.called [CallStep p] (World.set_rng r w),
      State.set_logWeights lws (State.set_particle p s1 out1 s),
      Some iter1).

(** The inner loop of [step], the particles taken in the order [ps]. *)
Definition advance_particles (iter last : nat) (ps : list nat)
    (st : World * State * option nat) : result (World * State * option nat) :=
  for_each (advance_particle iter last) ps st.

(** One pass of the [do] loop.  [iter1] is declared before the loop without
    a value ([None]) and keeps its value from one pass to the next; the
    assignment [iter = iter1] is defined once [iter1] has a value. *)
Definition pass (first iter last : nat) (iter1 : option nat)
    (c : World * Sampler * State) : result (World * Sampler * State * nat) :=
  let '(w, m, s) := c in
  let m := adapt s m in
  now ← defined (sched !! iter);
  let '(w, m, s) := resample now (w, m, s) in
  '(w, m, s) ← rejuvenate first (iter + 1) (w, m, s);
  let w := report now m s w in
  '(w, s, iter1) ← advance_particles iter last (seq 0 (State.size s)) (w, s, iter1);
  iter ← defined iter1;
  Ok (w, m, s, iter).

(** The loop condition [iter + 1 != last && !iter->isObserved()]. *)
Definition continue (iter last : nat) : result bool :=
  if decide (iter + 1 ≠ last) then
    now ← defined (sched !! iter);
    Ok (negb (isObserved now))
  else Ok false.

(** The [do ... while] loop, with at most [fuel] passes. *)
Fixpoint passes (fuel : nat) (first iter last : nat) (iter1 : option nat)
    (c : World * Sampler * State) : result (World * Sampler * State * nat) :=
  match fuel with
  | O => OutOfFuel
  | S fuel =>
      '(w, m, s, iter) ← pass first iter last iter1 c;
      b ← continue iter last;
      if b : bool then passes fuel first iter last (Some iter) (w, m, s)
      else Ok (w, m, s, iter)
  end.

(** The loop as the specification words it, to be compared with [passes]:
    the pass is repeated, here [n] times in a row, each pass starting at the
    position the one before it reached.  The last component is the position
    after the [n] passes. *)
Fixpoint repeat_pass (n : nat) (first iter last : nat) (iter1 : option nat)
    (c : World * Sampler * State) : result (World * Sampler * State * nat) :=
  match n with
  | O => Ok (c, iter)
  | S n =>
      '(w, m, s, iter) ← pass first iter last iter1 c;
      repeat_pass n first iter last (Some iter) (w, m, s)
  end.

(** The statements of [step] after the loop. *)
Definition finish (iter : nat) (s : State) : result State :=
  let '(e, lW) := ess_reduce (State.logWeights s) in
  let s := State.set_ess e s in
  now ← defined (sched !! iter);
  incs ← assign (State.logIncrements s) (indexObs now) (lW - State.logLikelihood s)%D;
  let s := State.set_logIncrements incs s in
  Ok (State.set_logLikelihood lW s).

(** [step]; the last component of the result is [iter] on return. *)
Definition step (fuel : nat) (first iter last : nat)
    (c : World * Sampler * State) : result (World * Sampler * State * nat) :=
  '(w, m, s, iter) ← passes fuel first iter last None c;
  s ← finish iter s;
  Ok (w, m, s, iter).

(** *** term *)

(** The body of the loop of [term] for particle [p]. *)
Definition samplePath_particle (p : nat) (ws : World * State) :
    result (World * State) :=
  let '(w, s) := ws in
  s1 ← defined (State.s1s s !! p);
  out1 ← defined (State.out1s s !! p);
  let '(r, s1, out1) := Filter.samplePath filter (World.rng w) s1 out1 in
  Ok (World.called [CallSamplePath p] (World.set_rng r w),
      State.set_particle p s1 out1 s).

Definition term (ws : World * State) : result (World * State) :=
  let '(w, s) := ws in
  let s :=
    State.set_logLikelihood
      (State.logLikelihood s
       + (logsumexp_reduce (State.logWeights s)
          - dlog (double_of_int (Z.of_nat (State.size s)))))%D s in
  for_loop (State.size s) samplePath_particle (w, s).

(** *** sample *)

(** The [while] loop of [sample]: [step] is called until [iter + 1 == last].
    At most [fuel] calls are made, each of at most [fuel1] passes. *)
Fixpoint steps (fuel fuel1 : nat) (first iter last : nat)
    (c : World * Sampler * State) : result (World * Sampler * State * nat) :=
  if decide (iter + 1 ≠ last) then
    match fuel with
    | O => OutOfFuel
    | S fuel =>
        '(w, m, s, iter) ← step fuel1 first iter last c;
        steps fuel fuel1 first iter last (w, m, s)
    end
  else Ok (c, iter).

(** [sample]; the particle count [C] is not used by the body. *)
Definition sample (fuel : nat) (first last : nat) (C : Z) (inInit : In)
    (c : World * Sampler * State * IO1) : result (World * Sampler * State * IO1) :=
  let iter := first in
  '(w, m, s, out) ← init iter inInit c;
  '(w, m, s, iter) ← steps fuel fuel first iter last (w, m, s);
  '(w, s) ← term (w, s);
  now ← defined (sched !! iter);
  let w := reportT now w in
  let out := outputT s out in
  Ok (w, m, s, out).

End MarginalSIR.

End MarginalSIR.

(** The acceptance ratio of a move as the specification words it:
    [(proposedLL - currentLL) + (proposedPrior - currentPrior)
     + (currentProposalDensity - proposedProposalDensity)],
    the last term taken as zero when both proposal densities are
    non-finite.  [s1] is the current state, [s2] the proposed one. *)
Definition logratio_spec {X : Type} (s1 s2 : S1.t X) : double :=
  let proposal_term :=
    if negb (is_finite (S1.logProposal s1)) && negb (is_finite (S1.logProposal s2))
    then Fin 0
    else (S1.logProposal s1 - S1.logProposal s2)%D in
  ((S1.logLikelihood s2 - S1.logLikelihood s1)
   + (S1.logPrior s2 - S1.logPrior s1)
   + proposal_term)%D.

(** The generator and the population, without the lines written and the
    calls recorded. *)
Definition population {Random X Out : Type}
    (ws : World.t Random * State.t X Out) : Random * State.t X Out :=
  (World.rng ws.1, ws.2).

(** What [rejuvenate] leaves alone in the population: everything but the
    contents of the per-particle slots and of the scratch slot. *)
Definition frame {X Out : Type} (s s' : State.t X Out) : Prop :=
  State.size s' = State.size s
  ∧ State.logWeights s' = State.logWeights s
  ∧ State.ancestors s' = State.ancestors s
  ∧ State.ess s' = State.ess s
  ∧ State.logLikelihood s' = State.logLikelihood s
  ∧ State.logIncrements s' = State.logIncrements s
  ∧ length (State.s1s s') = length (State.s1s s)
  ∧ length (State.out1s s') = length (State.out1s s).

(** A population on which [step] can work: it is well-formed, has a
    particle, and its [logIncrements] has an element for every observation
    index of the schedule [sched]. *)
Definition steppable {X Out : Type} (sched : list ScheduleElement)
    (s : State.t X Out) : Prop :=
  State.wf s ∧ 0 < State.size s
  ∧ ∀ now, now ∈ sched → indexObs now < length (State.logIncrements s).

(** What the inner loop of [step] does for particle [p], from the
    population [s] to the population [s']: the filter is called on the
    particle's state and output from the position [iter], and the increment
    it recorded at the observation index of the element it reached is added
    to the particle's log-weight. *)
Definition advanced {Random X Out In A : Type} (sched : list ScheduleElement)
    (filter : Filter.ops Random X Out In A) (iter last : nat)
    (s s' : State.t X Out) (p : nat) : Prop :=
  ∃ (s1 : S1.t X) (out1 : Out) (lw inc : double) (r : Random)
    (now1 : ScheduleElement),
    State.s1s s !! p = Some s1
    ∧ State.out1s s !! p = Some out1
    ∧ State.logWeights s !! p = Some lw
    ∧ sched !! (Filter.step filter r iter last s1 out1).1.1.2 = Some now1
    ∧ S1.logIncrements (Filter.step filter r iter last s1 out1).1.2
        !! indexObs now1 = Some inc
    ∧ State.s1s s' !! p = Some (Filter.step filter r iter last s1 out1).1.2
    ∧ State.out1s s' !! p = Some (Filter.step filter r iter last s1 out1).2
    ∧ State.logWeights s' !! p = Some (lw + inc)%D.

(** ** Stub collaborators

    Small collaborators and populations on which the member functions are
    run: a deterministic inner filter, a resampler that always resamples, an
    adapter that is never ready.  The generator is a counter, and the parts
    only the filter looks at are empty. *)

Module Stub.

(** A schedule of two elements: [t0], not observed, and [t1], observed. *)
Definition sched : list ScheduleElement :=
  [ {| getTime := Fin 0; indexOutput := 0; indexObs := 0; isObserved := false |};
    {| getTime := Fin 1; indexOutput := 1; indexObs := 0; isObserved := true |} ].

Definition rand : Random.ops nat :=
  {| Random.uniform := λ r, (Fin 1, S r) |}.

(** The deterministic filter.  Its [propose] gives the proposal the
    log-prior [-inf] and writes nothing else of it; its [step] records the
    increment 1 at observation index 0. *)
Definition filter : Filter.ops nat unit unit unit unit :=
  {| Filter.init := λ r now s1 out1 inInit, (r, s1, out1);
     Filter.output0 := λ s1 out1, out1;
     Filter.correct := λ r now s1, (r, S1.set_logLikelihood (Fin 0) s1);
     Filter.output := λ now s1 out1, out1;
     Filter.step := λ r i l s1 out1,
       (r, S i,
        S1.mk (S1.logLikelihood s1) (S1.logPrior s1) (S1.logProposal s1)
          [Fin 1] tt,
        out1);
     Filter.propose := λ r now s1 s2 out2 ad,
       (None, (r, s1, S1.mk (S1.logLikelihood s2) NInf NInf [] tt, out2));
     Filter.filter := λ r first last s2 out2,
       (None, (r, S1.set_logLikelihood (Fin 0) s2, out2));
     Filter.samplePath := λ r s1 out1, (r, s1, out1) |}.

(** A filter whose [correct] uses the generator: the first call gives the
    log-likelihood 0, the later ones [-inf]. *)
Definition drawing_filter : Filter.ops nat unit unit unit unit :=
  {| Filter.init := Filter.init filter;
     Filter.output0 := Filter.output0 filter;
     Filter.correct := λ r now s1,
       (S r, S1.set_logLikelihood (match r with O => Fin 0 | S _ => NInf end) s1);
     Filter.output := Filter.output filter;
     Filter.step := Filter.step filter;
     Filter.propose := Filter.propose filter;
     Filter.filter := Filter.filter filter;
     Filter.samplePath := Filter.samplePath filter |}.

Definition adapter : Adapter.ops unit unit unit :=
  {| Adapter.clear := λ ad, ad;
     Adapter.add := λ s ad, ad;
     Adapter.ready := λ ad, false;
     Adapter.adapt := λ ad, ad |}.

Definition resam : Resampler.ops nat unit unit :=
  {| Resampler.resample := λ r now s, (true, r, s) |}.

Definition output : Output.ops unit unit (list unit) :=
  {| Output.clear := λ out, [];
     Output.write := λ s out, out ++ [tt] |}.

Definition ess_reduce (lws : list double) : double * double :=
  (double_of_int (Z.of_nat (length lws)), foldl dadd (Fin 0) lws).

Definition world : World.t nat := World.mk 0 [] [].

(** A particle state with the log-likelihood [l]. *)
Definition particle (l : double) : S1.t unit := S1.mk l (Fin 0) (Fin 0) [Fin 0] tt.

(** [n] particles of log-likelihood [l] and log-weight [lw], a scratch slot
    of log-likelihood [l2], and the log-likelihood [ll]. *)
Definition pop (n : nat) (l lw l2 ll : double) : State.t unit unit :=
  State.mk n (replicate n (particle l)) (replicate n tt) (particle l2) tt
    (replicate n lw) (replicate n 0%Z) (Fin 0) ll [Fin 0].

(** After a resample, with [nmoves] moves per particle. *)
Definition sampler (nmoves : Z) : Sampler.t unit :=
  Sampler.mk tt nmoves true (Fin 0).

End Stub.

(** ** Reading the records *)

(** What a line on [std::cerr] says of the schedule: whether it is the
    line of [reportT], the output index and the time. *)
Definition line_header (l : Line) : bool * Z * double :=
  match l with
  | Progress index time _ _ => (false, index, time)
  | Finished index time => (true, index, time)
  end.

(** The header of the line [report] writes for a schedule element. *)
Definition progress_header (now : ScheduleElement) : bool * Z * double :=
  (false, indexOutput now, getTime now).

(** The record [t] of a run of proposals for the particles [ps] (a particle
    is listed once for each of its proposals): the record is, proposal by
    proposal and in the order of [ps], the call of [filter.propose] for the
    particle, followed or not by the call of [filter.filter] for the same
    particle.  So [filter.filter] is only called right after the proposal
    it evaluates, at most once, and nothing else is called. *)
Inductive proposal_trace : list nat → list Call → Prop :=
  | trace_done :
      proposal_trace [] []
  | trace_proposed (p : nat) (ps : list nat) (t : list Call) :
      proposal_trace ps t →
      proposal_trace (p :: ps) (CallPropose p :: t)
  | trace_filtered (p : nat) (ps : list nat) (t : list Call) :
      proposal_trace ps t →
      proposal_trace (p :: ps) (CallPropose p :: CallFilter p :: t).

(** ** More stub collaborators *)

Module Stub2.

(** A filter whose [propose] throws a [CholeskyException]. *)
Definition throwing_filter : Filter.ops nat unit unit unit unit :=
  {| Filter.init := Filter.init Stub.filter;
     Filter.output0 := Filter.output0 Stub.filter;
     Filter.correct := Filter.correct Stub.filter;
     Filter.output := Filter.output Stub.filter;
     Filter.step := Filter.step Stub.filter;
     Filter.propose := λ r now s1 s2 out2 ad,
       (Some CholeskyException, (S r, s1, s2, out2));
     Filter.filter := Filter.filter Stub.filter;
     Filter.samplePath := Filter.samplePath Stub.filter |}.

(** A filter whose [propose] gives the proposal the log-prior 0 and whose
    [filter] degenerates, after it has written the log-likelihood 1. *)
Definition degenerate_filter : Filter.ops nat unit unit unit unit :=
  {| Filter.init := Filter.init Stub.filter;
     Filter.output0 := Filter.output0 Stub.filter;
     Filter.correct := Filter.correct Stub.filter;
     Filter.output := Filter.output Stub.filter;
     Filter.step := Filter.step Stub.filter;
     Filter.propose := λ r now s1 s2 out2 ad,
       (None, (r, s1, S1.mk (S1.logLikelihood s2) (Fin 0) (Fin 0) [] tt, out2));
     Filter.filter := λ r first last s2 out2,
       (Some ParticleFilterDegeneratedException,
        (S r, S1.set_logLikelihood (Fin 1) s2, out2));
     Filter.samplePath := Filter.samplePath Stub.filter |}.

(** A schedule of four elements, the third observed. *)
Definition sched4 : list ScheduleElement :=
  [ {| getTime := Fin 0; indexOutput := 0; indexObs := 0; isObserved := false |};
    {| getTime := Fin 1; indexOutput := 1; indexObs := 0; isObserved := false |};
    {| getTime := Fin 2; indexOutput := 2; indexObs := 0; isObserved := true |};
    {| getTime := Fin 3; indexOutput := 3; indexObs := 0; isObserved := false |} ].

End Stub2.

(** * Properties *)

(** ** TreeNetworkNode *)

Module TreeNetworkNodeFacts.

Import TreeNetworkNode.

Section Node.
Context {MPI_Comm : Type} `{Countable MPI_Comm}.

Lemma run_calls_fields (cs : list (call MPI_Comm)) (nd : TreeNetworkNode MPI_Comm) :
parent (run_calls cs nd) = parent nd
∧ comms (run_calls cs nd) = comms nd
∧ newcomms (run_calls cs nd) = newcomms nd ∪ added cs
∧ oldcomms (run_calls cs nd) = oldcomms nd ∪ removed cs.
Proof.
revert nd. induction cs as [|c cs IH]; intros nd; simpl.
- repeat split; set_solver.
- destruct (IH (run_call c nd)) as (Hp & Hc & Hn & Ho).
  unfold run_calls in *. rewrite Hp, Hc, Hn, Ho.
  destruct c; simpl; repeat split; set_solver.
Qed.

Lemma added_perm (cs cs' : list (call MPI_Comm)) : cs ≡ₚ cs' → added cs = added cs'.
Proof.
induction 1 as [|c ? ? ? IH|c d ?|? ? ? ? IH1 ? IH2]; simpl.
- done.
- destruct c; by rewrite IH.
- destruct c, d; set_solver.
- congruence.
Qed.

Lemma removed_perm (cs cs' : list (call MPI_Comm)) : cs ≡ₚ cs' → removed cs = removed cs'.
Proof.
induction 1 as [|c ? ? ? IH|c d ?|? ? ? ? IH1 ? IH2]; simpl.
- done.
- destruct c; by rewrite IH.
- destruct c, d; set_solver.
- congruence.
Qed.


(** C8: [addChild(link)] inserts [link] into the pending-add set
  ([newcomms]) and returns the membership size counted before the insert:
  the size of the active set plus the size of the pending-add set at the
  moment of the call.  Nothing else of the node changes. *)
Theorem addChild_spec (comm : MPI_Comm) (nd : TreeNetworkNode MPI_Comm) :
fst (addChild comm nd)
  = (Z.of_nat (size (comms nd)) + Z.of_nat (size (newcomms nd)))%Z
∧ (∀ x, x ∈ newcomms (snd (addChild comm nd)) ↔ x = comm ∨ x ∈ newcomms nd)
∧ comms (snd (addChild comm nd)) = comms nd
∧ oldcomms (snd (addChild comm nd)) = oldcomms nd
∧ parent (snd (addChild comm nd)) = parent nd.
Proof.
simpl. repeat split; try set_solver.
Qed.

(** The commit with no removal pending: the pending adds become active. *)
Lemma updateChildren_defined (nd : TreeNetworkNode MPI_Comm) :
  oldcomms nd = ∅ →
  updateChildren nd
  = Ok (Z.of_nat (size (comms nd ∪ newcomms nd)),
        {| parent := parent nd; comms := comms nd ∪ newcomms nd;
           newcomms := ∅; oldcomms := ∅ |}).
Proof.
  intros Hold. unfold updateChildren, erase_range_of.
  by rewrite Hold, decide_True.
Qed.

(** The commit with a removal pending: [comms.erase] is handed the range
    of [oldcomms]. *)
Lemma updateChildren_undefined (nd : TreeNetworkNode MPI_Comm) :
  oldcomms nd ≠ ∅ → updateChildren nd = Undefined.
Proof.
  intros Hold. unfold updateChildren, erase_range_of.
  by rewrite decide_False.
Qed.

End Node.

(** C2 fails on the code: two children are added and the first is
    retired, then the commit is made.  The claim has the active set be the
    links added minus the links removed, here the second child alone, and
    the commit return 1; but the commit erases from [comms] the range
    [oldcomms.begin(), oldcomms.end()], which is not a range of [comms], and
    has no defined behaviour as soon as a removal is pending. *)
Lemma updateChildren_removal_pending :
  added [AddChild 1%Z; AddChild 2%Z; RemoveChild 1%Z]
    ∖ removed [AddChild 1%Z; AddChild 2%Z; RemoveChild 1%Z] = ({[2%Z]} : gset Z)
  ∧ oldcomms (run_calls [AddChild 1%Z; AddChild 2%Z; RemoveChild 1%Z] create)
    = ({[1%Z]} : gset Z)
  ∧ updateChildren (run_calls [AddChild 1%Z; AddChild 2%Z; RemoveChild 1%Z] create)
    = Undefined.
Proof.
  split; [|split].
  - simpl. set_solver.
  - simpl. set_solver.
  - apply updateChildren_undefined. simpl. set_solver.
Qed.

End TreeNetworkNodeFacts.


(** ** Double-precision values *)

Lemma ddiv_zero_zero : (double_of_int 0 / double_of_int 0)%D = NaN.
Proof.
  unfold double_of_int, ddiv.
  destruct (Req_dec_T (IZR 0) 0) as [_|Hne]; [|by destruct Hne].
  done.
Qed.

(** The quotient of two [int]s [0 <= a <= b], [0 < b], lies in [[0,1]]. *)
Lemma ddiv_int_unit (a b : Z) :
  (0 ≤ a ≤ b)%Z → (0 < b)%Z →
  ∃ x : R, (double_of_int a / double_of_int b)%D = Fin x ∧ (0 <= x <= 1)%R.
Proof.
  intros [Ha Hab] Hb. unfold double_of_int, ddiv.
  assert (0 < IZR b)%R as Hb' by (by apply IZR_lt).
  assert (0 <= IZR a)%R as Ha' by (by apply IZR_le).
  assert (IZR a <= IZR b)%R as Hab' by (by apply IZR_le).
  destruct (Req_dec_T (IZR b) 0) as [Hz|_]; [lra|].
  exists (IZR a / IZR b)%R. split; [done|]. split.
  - apply Rmult_le_pos; [done|]. left. by apply Rinv_0_lt_compat.
  - apply Rmult_le_reg_r with (IZR b); [done|].
    unfold Rdiv. rewrite Rmult_assoc, Rinv_l by lra. lra.
Qed.

(** A sum with a term that is [-inf] or a NaN is [-inf] or a NaN, and
    nothing is smaller than either. *)
Lemma dlt_nonfinite_prior (u a b p1 p2 q : double) :
  is_finite a = true → is_finite b = true →
  p2 = NInf ∨ p2 = NaN →
  (u <? (a - b) + (p2 - p1) + q)%D = false.
Proof.
  intros Ha Hb Hp2.
  destruct a, b; try done.
  destruct Hp2 as [-> | ->]; destruct p1, q, u; reflexivity.
Qed.

(** ** The result type *)

Lemma bind_Ok {A B : Type} (a : A) (k : A → result B) : (Ok a ≫= k) = k a.
Proof. done. Qed.

(** ** Loops *)

Section Loops.
Context {St : Type}.
Implicit Type body : nat → St → result St.

(** A loop over [seq a n] whose iterations are defined under an invariant
    indexed by the number of iterations made is defined. *)
Lemma for_each_seq_inv body (I : nat → St → Prop) (n a : nat) (st : St) :
  I a st →
  (∀ k st, a ≤ k < a + n → I k st → ∃ st', body k st = Ok st' ∧ I (S k) st') →
  ∃ st', for_each body (seq a n) st = Ok st' ∧ I (a + n) st'.
Proof.
  revert a st. induction n as [|n IH]; intros a st HI Hbody; simpl.
  - exists st. by rewrite Nat.add_0_r.
  - destruct (Hbody a st) as (st1 & -> & HI1); [lia|done|]. simpl.
    destruct (IH (S a) st1) as (st' & Hst' & HI'); [done| |].
    + intros k st2 Hk. apply Hbody. lia.
    + exists st'. split; [done|]. by replace (a + S n) with (S a + n) by lia.
Qed.

Lemma for_loop_inv body (I : nat → St → Prop) (n : nat) (st : St) :
  I 0 st →
  (∀ k st, k < n → I k st → ∃ st', body k st = Ok st' ∧ I (S k) st') →
  ∃ st', for_loop n body st = Ok st' ∧ I n st'.
Proof.
  intros HI Hbody. apply (for_each_seq_inv body I n 0 st HI).
  intros k st1 Hk. apply Hbody. lia.
Qed.

(** Iterations that commute pairwise, under an invariant of the loop, can
    be made in any order. *)
Lemma for_each_perm body (Inv : St → Prop) (D : nat → Prop) :
  (∀ p st st', D p → Inv st → body p st = Ok st' → Inv st') →
  (∀ p q st, D p → D q → Inv st →
     (body p st ≫= body q) = (body q st ≫= body p)) →
  ∀ ps ps', ps ≡ₚ ps' → Forall D ps →
  ∀ st, Inv st → for_each body ps st = for_each body ps' st.
Proof.
  intros Hinv Hcomm ps ps' Hperm.
  induction Hperm as [|p ps ps' Hperm IH|p q ps|ps ps' ps'' H1 IH1 H2 IH2];
    intros HD st Hst.
  - done.
  - apply Forall_cons in HD as [Hp HD]. simpl.
    destruct (body p st) as [st'| |] eqn:E; simpl; try done.
    apply IH; [done|]. by eapply Hinv.
  - apply Forall_cons in HD as [Hq HD]. apply Forall_cons in HD as [Hp HD].
    simpl. pose proof (Hcomm p q st Hp Hq Hst) as Hc.
    destruct (body q st) as [st1| |] eqn:Eq; destruct (body p st) as [st2| |] eqn:Ep;
      simpl in *; try done;
      try (rewrite Hc; done); try (rewrite <- Hc; done).
  - rewrite IH1 by done. apply IH2; [|done].
    by rewrite <- H1.
Qed.

End Loops.

(** A loop seen through a projection of its state. *)
Lemma for_each_proj {St St' : Type} (π : St → St')
    (body : nat → St → result St) (body' : nat → St' → result St') :
  (∀ p st, π <$> body p st = body' p (π st)) →
  ∀ ps st, π <$> for_each body ps st = for_each body' ps (π st).
Proof.
  intros Hproj ps. induction ps as [|p ps IH]; intros st; simpl; [done|].
  rewrite <- Hproj. destruct (body p st) as [st'| |]; simpl; [apply IH|done|done].
Qed.

(** ** rejuvenate *)

Module Rejuvenate.

Lemma frame_refl {X Out : Type} (s : State.t X Out) : frame s s.
Proof. by repeat split. Qed.

Lemma frame_trans {X Out : Type} (s s' s'' : State.t X Out) :
  frame s s' → frame s' s'' → frame s s''.
Proof.
  unfold frame. intros (?&?&?&?&?&?&?&?) (?&?&?&?&?&?&?&?).
  repeat split; congruence.
Qed.

Lemma frame_set_particle {X Out : Type} (s : State.t X Out) p s1 out1 :
  frame s (State.set_particle p s1 out1 s).
Proof. repeat split; simpl; by rewrite ?length_insert. Qed.

Lemma frame_set_scratch {X Out : Type} (s : State.t X Out) s2 out2 :
  frame s (State.set_scratch s2 out2 s).
Proof. by repeat split. Qed.

Lemma frame_wf {X Out : Type} (s s' : State.t X Out) :
  frame s s' → State.wf s → State.wf s'.
Proof.
  unfold frame, State.wf. intros (?&?&?&?&?&?&?&?) (?&?&?&?).
  repeat split; congruence.
Qed.

Section Rejuvenate.
Context {Random X Out In A : Type}.
Variable sched : list ScheduleElement.
Variable rand : Random.ops Random.
Variable filter : Filter.ops Random X Out In A.
Variable adapter : Adapter.ops X Out A.

Abbreviation World := (World.t Random).
Abbreviation Sampler := (Sampler.t A).
Abbreviation State := (State.t X Out).
Abbreviation S1 := (S1.t X).

Abbreviation propose_replacement := (MarginalSIR.propose_replacement sched filter).
Abbreviation accept_or_reject := (MarginalSIR.accept_or_reject rand).
Abbreviation accept_move := (MarginalSIR.accept_move rand).
Abbreviation move := (MarginalSIR.move sched rand filter).
Abbreviation rejuvenate_particle := (MarginalSIR.rejuvenate_particle sched rand filter).
Abbreviation rejuvenate := (MarginalSIR.rejuvenate sched rand filter adapter).

(** The [try] block is defined when the particle and the start of the
    schedule exist; it leaves the frame alone and keeps the particle's slot. *)
Lemma propose_replacement_defined first last ready ad p (w : World) (s : State) :
  p < length (State.s1s s) → p < length (State.out1s s) →
  is_Some (sched !! first) →
  ∃ w' s', propose_replacement first last ready ad p (w, s) = Ok (w', s')
           ∧ frame s s'.
Proof.
  intros Hp Ho [now Hnow]. unfold MarginalSIR.propose_replacement.
  destruct (lookup_lt_is_Some_2 _ _ Hp) as [s1 ->].
  destruct (lookup_lt_is_Some_2 _ _ Ho) as [out1 ->].
  rewrite Hnow. simpl.
  destruct (Filter.propose _ _ _ _ _ _ _) as [e [[[r s1'] s2'] out2']].
  assert (∀ a b, frame s (State.set_scratch a b (State.set_particle p s1' out1 s)))
    as Hframe.
  { intros a b. eapply frame_trans; [apply frame_set_particle|apply frame_set_scratch]. }
  destruct e as [e|]; [eauto|].
  destruct (is_finite (S1.logPrior s2')); [|eauto].
  destruct (Filter.filter _ _ _ _ _ _) as [e [[r2 s2''] out2'']].
  destruct e; eauto.
Qed.

Lemma propose_replacement_frame first last ready ad p (w w' : World) (s s' : State) :
  propose_replacement first last ready ad p (w, s) = Ok (w', s') → frame s s'.
Proof.
  unfold MarginalSIR.propose_replacement.
  destruct (State.s1s s !! p) as [s1|] eqn:E1; simpl; [|done].
  destruct (State.out1s s !! p) as [out1|] eqn:E2; simpl; [|done].
  destruct (sched !! first) as [now|] eqn:E3; simpl; [|done].
  intros Heq.
  destruct (propose_replacement_defined first last ready ad p w s)
    as (w1 & s1' & Heq' & Hframe).
  - by eapply lookup_lt_Some.
  - by eapply lookup_lt_Some.
  - by rewrite E3.
  - unfold MarginalSIR.propose_replacement in Heq'.
    rewrite E1, E2, E3 in Heq'. simpl in Heq'. congruence.
Qed.

Lemma accept_move_defined p (w : World) (s : State) (naccept : Z) :
  p < length (State.s1s s) → p < length (State.out1s s) →
  ∃ w' s' naccept', accept_move p (w, s, naccept) = Ok (w', s', naccept')
    ∧ frame s s' ∧ (naccept ≤ naccept' ≤ naccept + 1)%Z.
Proof.
  intros Hp Ho. unfold MarginalSIR.accept_move.
  destruct (lookup_lt_is_Some_2 _ _ Hp) as [s1 ->].
  destruct (lookup_lt_is_Some_2 _ _ Ho) as [out1 ->]. simpl.
  destruct (MarginalSIR.accept_or_reject _ _ _ _) as [[|] r].
  - eexists _, _, _. split; [done|]. split; [|lia].
    eapply frame_trans; [apply frame_set_particle|apply frame_set_scratch].
  - eexists _, _, _. split; [done|]. split; [apply frame_refl|lia].
Qed.

Lemma move_defined first last ready ad p (w : World) (s : State) (naccept : Z) :
  p < length (State.s1s s) → p < length (State.out1s s) →
  is_Some (sched !! first) →
  ∃ w' s' naccept', move first last ready ad p (w, s, naccept) = Ok (w', s', naccept')
    ∧ frame s s' ∧ (naccept ≤ naccept' ≤ naccept + 1)%Z.
Proof.
  intros Hp Ho Hfirst. unfold MarginalSIR.move.
  destruct (propose_replacement_defined first last ready ad p w s Hp Ho Hfirst)
    as (w1 & s1 & -> & Hf1). rewrite bind_Ok.
  destruct Hf1 as (?&?&?&?&?&?&Hl1&Hl2).
  destruct (accept_move_defined p w1 s1 naccept) as (w2 & s2 & n2 & -> & Hf2 & Hn);
    [lia|lia|].
  eexists _, _, _. split; [done|]. split; [|done].
  eapply frame_trans; [|done]. by repeat split.
Qed.

Lemma rejuvenate_particle_defined first last ready ad (nmoves : Z) p
    (w : World) (s : State) (n : Z) :
  p < length (State.s1s s) → p < length (State.out1s s) →
  is_Some (sched !! first) →
  ∃ w' s' n', rejuvenate_particle first last ready ad nmoves p (w, s, n) = Ok (w', s', n')
    ∧ frame s s' ∧ (n ≤ n' ≤ n + Z.of_nat (Z.to_nat nmoves))%Z.
Proof.
  intros Hp Ho Hfirst. unfold MarginalSIR.rejuvenate_particle.
  destruct (lookup_lt_is_Some_2 _ _ Hp) as [s1 ->].
  destruct (lookup_lt_is_Some_2 _ _ Ho) as [out1 ->].
  cbn [defined]. rewrite !bind_Ok.
  destruct (for_loop_inv (λ _, move first last ready ad p)
              (λ k '(w', s', n'), frame s s' ∧ (n ≤ n' ≤ n + Z.of_nat k)%Z)
              (Z.to_nat nmoves) (w, s, n)) as ([[w' s'] n'] & Heq & Hf & Hn).
  - split; [apply frame_refl|lia].
  - intros k [[w1 s1'] n1] _ [Hf Hn].
    destruct Hf as (?&?&?&?&?&?&Hl1&Hl2).
    destruct (move_defined first last ready ad p w1 s1' n1)
      as (w2 & s2 & n2 & Heq & Hf2 & Hn2); [lia|lia|done|].
    exists (w2, s2, n2). split; [done|]. split; [|lia].
    eapply frame_trans; [|done]. by repeat split.
  - eauto 10.
Qed.

Lemma rejuvenate_particle_no_moves first last ready ad (nmoves : Z) p
    (w : World) (s : State) (n : Z) :
  p < length (State.s1s s) → p < length (State.out1s s) → (nmoves ≤ 0)%Z →
  rejuvenate_particle first last ready ad nmoves p (w, s, n) = Ok (w, s, n).
Proof.
  intros Hp Ho Hn. unfold MarginalSIR.rejuvenate_particle.
  destruct (lookup_lt_is_Some_2 _ _ Hp) as [s1 ->].
  destruct (lookup_lt_is_Some_2 _ _ Ho) as [out1 ->].
  cbn [defined]. rewrite !bind_Ok. by replace (Z.to_nat nmoves) with 0 by lia.
Qed.

(** The loop of [rejuvenate] over the particles: it is defined on a
    well-formed population, leaves the frame alone and accepts at most
    [nmoves] moves per particle. *)
Lemma rejuvenate_loop_defined first last ready ad (nmoves : Z)
    (w : World) (s : State) :
  State.wf s → is_Some (sched !! first) ∨ (nmoves ≤ 0)%Z →
  ∃ w' s' n',
    for_loop (State.size s) (rejuvenate_particle first last ready ad nmoves) (w, s, 0%Z)
      = Ok (w', s', n')
    ∧ frame s s'
    ∧ (0 ≤ n' ≤ Z.of_nat (State.size s) * Z.of_nat (Z.to_nat nmoves))%Z.
Proof.
  intros (Hl1 & Hl2 & _) Hfirst.
  destruct (for_loop_inv (rejuvenate_particle first last ready ad nmoves)
              (λ k '(w', s', n'),
                 frame s s' ∧ (0 ≤ n' ≤ Z.of_nat k * Z.of_nat (Z.to_nat nmoves))%Z)
              (State.size s) (w, s, 0%Z)) as ([[w' s'] n'] & Heq & Hf & Hn).
  - split; [apply frame_refl|lia].
  - intros k [[w1 s1'] n1] Hk [Hf Hn].
    destruct Hf as (Hsz&?&?&?&?&?&Hl1'&Hl2').
    destruct Hfirst as [Hfirst|Hnm].
    + destruct (rejuvenate_particle_defined first last ready ad nmoves k w1 s1' n1)
        as (w2 & s2 & n2 & Heq & Hf2 & Hn2); [lia|lia|done|].
      exists (w2, s2, n2). split; [done|]. split; [|lia].
      eapply frame_trans; [|done]. by repeat split.
    + rewrite rejuvenate_particle_no_moves by lia.
      exists (w1, s1', n1). split; [done|]. split; [by repeat split|lia].
  - eauto 10.
Qed.

(** Without a resample on the last step, [rejuvenate] does nothing. *)
Lemma rejuvenate_no_resample first last (w : World) (m : Sampler) (s : State) :
  Sampler.lastResample m = false →
  rejuvenate first last (w, m, s) = Ok (w, m, s).
Proof. intros Hr. unfold MarginalSIR.rejuvenate. by rewrite Hr. Qed.

(** C1: in [rejuvenate] (which makes its moves when [lastResample] is true
    only), every move of every particle is decided, once the proposal is
    made, as follows.  A non-finite proposed log-likelihood rejects; a
    finite proposed log-likelihood with a non-finite current one accepts;
    and when both are finite the move is accepted exactly when
    [log(u) < logratio], for [u] the next draw of [rng.uniform] and
    [logratio = (proposedLL - currentLL) + (proposedPrior - currentPrior)
    + (currentProposalDensity - proposedProposalDensity)], the last term
    being zero when both log-proposal-densities are non-finite
    ([logratio_spec]).  On acceptance the particle's state and output are
    swapped with the scratch slot and the counter is incremented. *)
Theorem move_acceptance first last ready ad p (w w1 : World) (s sp : State)
    (naccept : Z)
    (Htry : propose_replacement first last ready ad p (w, s) = Ok (w1, sp)) :
  ∃ (s1 : S1) (out1 : Out) (accept : bool) (r : Random),
    State.s1s sp !! p = Some s1
    ∧ State.out1s sp !! p = Some out1
    ∧ move first last ready ad p (w, s, naccept)
      = Ok (World.set_rng r w1,
            if accept
            then State.set_scratch s1 out1
                   (State.set_particle p (State.s2 sp) (State.out2 sp) sp)
            else sp,
            if accept then (naccept + 1)%Z else naccept)
    ∧ (is_finite (S1.logLikelihood (State.s2 sp)) = false →
       accept = false ∧ r = World.rng w1)
    ∧ (is_finite (S1.logLikelihood (State.s2 sp)) = true →
       is_finite (S1.logLikelihood s1) = false →
       accept = true ∧ r = World.rng w1)
    ∧ (is_finite (S1.logLikelihood (State.s2 sp)) = true →
       is_finite (S1.logLikelihood s1) = true →
       accept = (dlog (Random.uniform rand (World.rng w1)).1
                 <? logratio_spec s1 (State.s2 sp))%D
       ∧ r = (Random.uniform rand (World.rng w1)).2).
Proof.
  pose proof (propose_replacement_frame _ _ _ _ _ _ _ _ _ Htry)
    as (_&_&_&_&_&_&Hl1&Hl2).
  assert (is_Some (State.s1s s !! p) ∧ is_Some (State.out1s s !! p)) as [H1 H2].
  { revert Htry. unfold MarginalSIR.propose_replacement.
    destruct (State.s1s s !! p); simpl; [|done].
    destruct (State.out1s s !! p); simpl; [|done]. by split. }
  apply lookup_lt_is_Some_1 in H1, H2.
  destruct (lookup_lt_is_Some_2 (State.s1s sp) p) as [s1 Hs1]; [lia|].
  destruct (lookup_lt_is_Some_2 (State.out1s sp) p) as [out1 Hout1]; [lia|].
  unfold MarginalSIR.move. rewrite Htry, bind_Ok.
  unfold MarginalSIR.accept_move. rewrite Hs1, Hout1. cbn [defined]. rewrite !bind_Ok.
  unfold MarginalSIR.accept_or_reject, logratio_spec.
  destruct (is_finite (S1.logLikelihood (State.s2 sp))) eqn:E2; simpl.
  - destruct (is_finite (S1.logLikelihood s1)) eqn:E1; simpl.
    + destruct (Random.uniform rand (World.rng w1)) as [u r] eqn:Eu. simpl.
      exists s1, out1, (dlog u <? logratio_spec s1 (State.s2 sp))%D, r.
      unfold logratio_spec. repeat split; try congruence.
      by destruct (dlog u <? _)%D.
    + exists s1, out1, true, (World.rng w1).
      destruct w1. repeat split; congruence.
  - exists s1, out1, false, (World.rng w1).
    destruct w1. repeat split; congruence.
Qed.

(** X19: what the code does in a move whose proposal returns without an
    exception and with a non-finite log-prior: [filter.filter] is not called
    (the only call recorded is the one of [propose], and the scratch slot
    holds what [propose] left there), and the decision is taken on the
    log-likelihood [propose] left in the proposed state, which the branch
    does not set.  The move is rejected (no swap, the counter not
    incremented) when that log-likelihood is non-finite, and also when it and
    the current one are both finite and the proposed log-prior is [-inf] or
    a NaN. *)
Theorem move_nonfinite_prior (first last : nat) (ready : bool) (ad : A) (p : nat)
    (w : World) (s : State) (naccept : Z) (now : ScheduleElement)
    (s1 s1' s2' : S1) (out1 out2' : Out) (r : Random)
    (Hs1 : State.s1s s !! p = Some s1)
    (Hout1 : State.out1s s !! p = Some out1)
    (Hnow : sched !! first = Some now)
    (Hpropose :
       Filter.propose filter (World.rng w) now s1 (State.s2 s) (State.out2 s)
         (if ready then Some ad else None) = (None, (r, s1', s2', out2')))
    (Hprior : is_finite (S1.logPrior s2') = false) :
  let w1 := World.called [CallPropose p] (World.set_rng r w) in
  let sp := State.set_scratch s2' out2' (State.set_particle p s1' out1 s) in
  propose_replacement first last ready ad p (w, s) = Ok (w1, sp)
  ∧ (is_finite (S1.logLikelihood s2') = false →
     move first last ready ad p (w, s, naccept) = Ok (w1, sp, naccept))
  ∧ (is_finite (S1.logLikelihood s2') = true →
     is_finite (S1.logLikelihood s1') = true →
     S1.logPrior s2' = NInf ∨ S1.logPrior s2' = NaN →
     move first last ready ad p (w, s, naccept)
     = Ok (World.set_rng (Random.uniform rand r).2 w1, sp, naccept)).
Proof.
  intros w1 sp.
  assert (propose_replacement first last ready ad p (w, s) = Ok (w1, sp)) as Htry.
  { unfold MarginalSIR.propose_replacement.
    rewrite Hs1, Hout1, Hnow. cbn [defined]. rewrite !bind_Ok.
    by rewrite Hpropose, Hprior. }
  assert (State.s1s sp !! p = Some s1') as Hs1'.
  { apply list_lookup_insert_eq. by eapply lookup_lt_Some. }
  assert (State.out1s sp !! p = Some out1) as Hout1'.
  { apply list_lookup_insert_eq. by eapply lookup_lt_Some. }
  assert (move first last ready ad p (w, s, naccept)
          = (let '(accept, r) := accept_or_reject s1' s2' (World.rng w1) in
             if accept : bool
             then Ok (World.set_rng r w1,
                      State.set_scratch s1' out1
                        (State.set_particle p s2' out2' sp), (naccept + 1)%Z)
             else Ok (World.set_rng r w1, sp, naccept))) as Hmove.
  { unfold MarginalSIR.move. rewrite Htry, bind_Ok.
    unfold MarginalSIR.accept_move. rewrite Hs1', Hout1'. cbn [defined].
    by rewrite !bind_Ok. }
  split; [done|]. split.
  - intros E2. rewrite Hmove.
    unfold MarginalSIR.accept_or_reject. rewrite E2. simpl. by destruct w.
  - intros E2 E1 Hp2. rewrite Hmove.
    unfold MarginalSIR.accept_or_reject. rewrite E2, E1. simpl.
    destruct (Random.uniform rand r) as [u r'].
    by rewrite dlt_nonfinite_prior.
Qed.

(** With a resample on the last step, [rejuvenate] on a well-formed
    population returns, and sets [lastAcceptRate] to the quotient of a
    count [naccept] of at most [nmoves] per particle by
    [ntotal = nmoves * size]. *)
Lemma rejuvenate_defined first last (w : World) (m : Sampler) (s : State) :
  State.wf s → is_Some (sched !! first) ∨ (Sampler.nmoves m ≤ 0)%Z →
  Sampler.lastResample m = true →
  ∃ w' s' naccept,
    rejuvenate first last (w, m, s)
    = Ok (w',
          Sampler.mk (Sampler.adapter m) (Sampler.nmoves m) true
            (double_of_int naccept
             / double_of_int (Sampler.nmoves m * Z.of_nat (State.size s)))%D,
          s')
    ∧ frame s s'
    ∧ (0 ≤ naccept ≤ Z.of_nat (State.size s) * Z.of_nat (Z.to_nat (Sampler.nmoves m)))%Z.
Proof.
  intros Hwf Hfirst Hr. unfold MarginalSIR.rejuvenate. rewrite Hr.
  destruct (rejuvenate_loop_defined first last
              (Adapter.ready adapter (Sampler.adapter m)) (Sampler.adapter m)
              (Sampler.nmoves m) w s Hwf Hfirst) as (w' & s' & n' & -> & Hf & Hn).
  rewrite bind_Ok. exists w', s', n'. split; [|done].
  destruct Hf as (-> & _). done.
Qed.

(** With [nmoves = 0] and a resample on the last step, [rejuvenate] changes
    [lastAcceptRate] alone, to the quotient of the two [int]s 0. *)
Lemma rejuvenate_no_moves first last (w : World) (m : Sampler) (s : State) :
  State.wf s → Sampler.nmoves m = 0%Z → Sampler.lastResample m = true →
  rejuvenate first last (w, m, s)
  = Ok (w, Sampler.mk (Sampler.adapter m) 0 true NaN, s).
Proof.
  intros Hwf Hn Hr. unfold MarginalSIR.rejuvenate. rewrite Hr, Hn.
  destruct Hwf as (Hl1 & Hl2 & _).
  destruct (for_loop_inv
              (rejuvenate_particle first last
                 (Adapter.ready adapter (Sampler.adapter m)) (Sampler.adapter m) 0)
              (λ _ st, st = (w, s, 0%Z)) (State.size s) (w, s, 0%Z))
    as (st & -> & ->); [done| |].
  - intros k st Hk ->. exists (w, s, 0%Z). split; [|done].
    apply rejuvenate_particle_no_moves; lia.
  - rewrite bind_Ok. rewrite Z.mul_0_l, ddiv_zero_zero. done.
Qed.

(** With integers in place of [int]s: when [nmoves * size] is positive, the
    quotient [rejuvenate] sets lies in [[0,1]]. *)
Lemma rejuvenate_rate_unit first last (w : World) (m : Sampler) (s : State) :
  State.wf s → is_Some (sched !! first) →
  Sampler.lastResample m = true →
  (0 < Sampler.nmoves m * Z.of_nat (State.size s))%Z →
  ∃ w' m' s' (x : R),
    rejuvenate first last (w, m, s) = Ok (w', m', s')
    ∧ Sampler.lastAcceptRate m' = Fin x ∧ (0 <= x <= 1)%R.
Proof.
  intros Hwf Hfirst Hr Hpos.
  destruct (rejuvenate_defined first last w m s Hwf (or_introl Hfirst) Hr)
    as (w' & s' & n & -> & _ & Hn).
  destruct (ddiv_int_unit n (Sampler.nmoves m * Z.of_nat (State.size s)))
    as (x & Hx & Hx01); [nia|done|].
  eexists w', _, s', x. split; [done|]. by split.
Qed.

(** [rejuvenate] returns on a well-formed population, with or without a
    resample on the last step, and leaves the frame alone. *)
Lemma rejuvenate_total first last (w : World) (m : Sampler) (s : State) :
  State.wf s → is_Some (sched !! first) →
  ∃ w' rate s',
    rejuvenate first last (w, m, s)
    = Ok (w',
          Sampler.mk (Sampler.adapter m) (Sampler.nmoves m)
            (Sampler.lastResample m) rate,
          s')
    ∧ frame s s'.
Proof.
  intros Hwf Hfirst. destruct (Sampler.lastResample m) eqn:Hr.
  - destruct (rejuvenate_defined first last w m s Hwf (or_introl Hfirst) Hr)
      as (w' & s' & n & -> & Hf & _).
    by eexists w', _, s'.
  - rewrite rejuvenate_no_resample by done.
    exists w, (Sampler.lastAcceptRate m), s. split; [|apply frame_refl].
    destruct m. simpl in *. by subst.
Qed.

(** C10: [rejuvenate] never modifies the [logWeights] vector, the
    [ancestors] vector, [ess] or [logLikelihood] of the population (nor its
    [size] and [logIncrements]): on a well-formed population it returns,
    and these are the same before and after the call.  Of the sampler,
    [lastAcceptRate] alone may change. *)
Theorem rejuvenate_frame first last (w : World) (m : Sampler) (s : State)
    (Hwf : State.wf s) (Hfirst : is_Some (sched !! first)) :
  ∃ w' m' s',
    rejuvenate first last (w, m, s) = Ok (w', m', s')
    ∧ State.logWeights s' = State.logWeights s
    ∧ State.ancestors s' = State.ancestors s
    ∧ State.ess s' = State.ess s
    ∧ State.logLikelihood s' = State.logLikelihood s
    ∧ State.size s' = State.size s
    ∧ State.logIncrements s' = State.logIncrements s
    ∧ Sampler.adapter m' = Sampler.adapter m
    ∧ Sampler.nmoves m' = Sampler.nmoves m
    ∧ Sampler.lastResample m' = Sampler.lastResample m.
Proof.
  destruct (Sampler.lastResample m) eqn:Hr.
  - destruct (rejuvenate_defined first last w m s Hwf (or_introl Hfirst) Hr)
      as (w' & s' & n & -> & (?&?&?&?&?&?&_) & _).
    eexists w', _, s'. split; [done|]. by repeat split.
  - rewrite rejuvenate_no_resample by done.
    exists w, m, s. by repeat split.
Qed.

End Rejuvenate.

(** *** Runs on the stub collaborators *)

(** A run of C1: one particle of log-likelihood 0, the scratch slot holding
    the log-likelihood [-inf]; the proposal is made, and rejected. *)
Lemma move_acceptance_witness :
  let s := Stub.pop 1 (Fin 0) (Fin 0) NInf (Fin 0) in
  let w1 := World.mk 0 [] [CallPropose 0] in
  let sp :=
    State.set_scratch (S1.mk NInf NInf NInf [] tt) tt
      (State.set_particle 0 (Stub.particle (Fin 0)) tt s) in
  MarginalSIR.propose_replacement Stub.sched Stub.filter 0 1 false tt 0
    (Stub.world, s) = Ok (w1, sp)
  ∧ ∃ (s1 : S1.t unit) (out1 : unit) (accept : bool) (r : nat),
      State.s1s sp !! 0 = Some s1
      ∧ State.out1s sp !! 0 = Some out1
      ∧ MarginalSIR.move Stub.sched Stub.rand Stub.filter 0 1 false tt 0
          (Stub.world, s, 0%Z)
        = Ok (World.set_rng r w1,
              if accept
              then State.set_scratch s1 out1
                     (State.set_particle 0 (State.s2 sp) (State.out2 sp) sp)
              else sp,
              if accept then (0 + 1)%Z else 0%Z)
      ∧ (is_finite (S1.logLikelihood (State.s2 sp)) = false →
         accept = false ∧ r = World.rng w1)
      ∧ (is_finite (S1.logLikelihood (State.s2 sp)) = true →
         is_finite (S1.logLikelihood s1) = false →
         accept = true ∧ r = World.rng w1)
      ∧ (is_finite (S1.logLikelihood (State.s2 sp)) = true →
         is_finite (S1.logLikelihood s1) = true →
         accept = (dlog (Random.uniform Stub.rand (World.rng w1)).1
                   <? logratio_spec s1 (State.s2 sp))%D
         ∧ r = (Random.uniform Stub.rand (World.rng w1)).2).
Proof.
  intros s w1 sp.
  assert (MarginalSIR.propose_replacement Stub.sched Stub.filter 0 1 false tt 0
            (Stub.world, s) = Ok (w1, sp)) as Htry by reflexivity.
  split; [exact Htry|].
  exact (move_acceptance Stub.sched Stub.rand Stub.filter 0 1 false tt 0
           Stub.world w1 s sp 0%Z Htry).
Defined.

(** C4 fails on the code: the particle's log-likelihood is [-inf], the
    scratch slot holds the log-likelihood 0 from before, and the proposal
    comes back without an exception and with the log-prior [-inf].
    [filter.filter] is not called, as claimed, but the branch that skips it
    does not set the proposed log-likelihood to [-inf], as the two exception
    handlers do: the decision reads the value left in the scratch slot, and
    the move is accepted, the proposal becomes the particle's state and the
    counter is incremented. *)
Lemma move_nonfinite_prior_accepted :
  let s := Stub.pop 1 NInf (Fin 0) (Fin 0) (Fin 0) in
  let proposal := S1.mk (Fin 0) NInf NInf [] tt in
  Filter.propose Stub.filter 0 {| getTime := Fin 0; indexOutput := 0;
                                  indexObs := 0; isObserved := false |}
    (Stub.particle NInf) (State.s2 s) (State.out2 s) None
  = (None, (0, Stub.particle NInf, proposal, tt))
  ∧ is_finite (S1.logPrior proposal) = false
  ∧ ∃ w' s',
      MarginalSIR.move Stub.sched Stub.rand Stub.filter 0 1 false tt 0
        (Stub.world, s, 0%Z) = Ok (w', s', 1%Z)
      ∧ World.calls w' = [CallPropose 0]
      ∧ State.s1s s' !! 0 = Some proposal
      ∧ State.s2 s' = Stub.particle NInf.
Proof.
  intros s proposal. split; [reflexivity|]. split; [reflexivity|].
  eexists _, _. split; [vm_compute; reflexivity|].
  split; [reflexivity|]. split; reflexivity.
Qed.

(** A run of such a move: the same proposal, the scratch slot holding the
    log-likelihood [-inf]. *)
Lemma move_nonfinite_prior_witness :
  let s := Stub.pop 1 (Fin 0) (Fin 0) NInf (Fin 0) in
  let now := {| getTime := Fin 0; indexOutput := 0;
                indexObs := 0; isObserved := false |} in
  let s2' := S1.mk NInf NInf NInf [] tt in
  let w1 := World.called [CallPropose 0] (World.set_rng 0 Stub.world) in
  let sp := State.set_scratch s2' tt
              (State.set_particle 0 (Stub.particle (Fin 0)) tt s) in
  MarginalSIR.propose_replacement Stub.sched Stub.filter 0 1 false tt 0
    (Stub.world, s) = Ok (w1, sp)
  ∧ (is_finite (S1.logLikelihood s2') = false →
     MarginalSIR.move Stub.sched Stub.rand Stub.filter 0 1 false tt 0
       (Stub.world, s, 0%Z) = Ok (w1, sp, 0%Z))
  ∧ (is_finite (S1.logLikelihood s2') = true →
     is_finite (S1.logLikelihood (Stub.particle (Fin 0))) = true →
     S1.logPrior s2' = NInf ∨ S1.logPrior s2' = NaN →
     MarginalSIR.move Stub.sched Stub.rand Stub.filter 0 1 false tt 0
       (Stub.world, s, 0%Z)
     = Ok (World.set_rng (Random.uniform Stub.rand 0).2 w1, sp, 0%Z)).
Proof.
  intros s now s2' w1 sp.
  exact (move_nonfinite_prior Stub.sched Stub.rand Stub.filter 0 1 false tt 0
           Stub.world s 0%Z now (Stub.particle (Fin 0)) (Stub.particle (Fin 0))
           s2' tt tt 0 eq_refl eq_refl eq_refl eq_refl eq_refl).
Defined.

(** C3 fails on the code: after a resample and with [nmoves = 0],
    [rejuvenate] on three particles leaves the population alone and replaces
    the rate 0 by the quotient [0 / 0], a NaN, which is not in [[0,1]]. *)
Lemma rejuvenate_no_moves_nan :
  let m := Stub.sampler 0 in
  let s := Stub.pop 3 (Fin 0) (Fin 0) (Fin 0) (Fin 0) in
  Sampler.lastAcceptRate m = Fin 0
  ∧ MarginalSIR.rejuvenate Stub.sched Stub.rand Stub.filter Stub.adapter 0 1
      (Stub.world, m, s)
    = Ok (Stub.world, Sampler.mk tt 0 true NaN, s)
  ∧ ((Fin 0 <=? NaN) && (NaN <=? Fin 1))%D = false.
Proof.
  intros m s. split; [reflexivity|]. split; [|reflexivity].
  apply (rejuvenate_no_moves Stub.sched Stub.rand Stub.filter Stub.adapter 0 1
           Stub.world m s); [|reflexivity|reflexivity].
  repeat split.
Qed.

(** A run of C10: three particles, one move each, after a resample. *)
Lemma rejuvenate_frame_witness :
  let m := Stub.sampler 1 in
  let s := Stub.pop 3 (Fin 0) (Fin 0) (Fin 0) (Fin 0) in
  State.wf s ∧ is_Some (Stub.sched !! 0)
  ∧ ∃ w' m' s',
      MarginalSIR.rejuvenate Stub.sched Stub.rand Stub.filter Stub.adapter 0 1
        (Stub.world, m, s) = Ok (w', m', s')
      ∧ State.logWeights s' = State.logWeights s
      ∧ State.ancestors s' = State.ancestors s
      ∧ State.ess s' = State.ess s
      ∧ State.logLikelihood s' = State.logLikelihood s
      ∧ State.size s' = State.size s
      ∧ State.logIncrements s' = State.logIncrements s
      ∧ Sampler.adapter m' = Sampler.adapter m
      ∧ Sampler.nmoves m' = Sampler.nmoves m
      ∧ Sampler.lastResample m' = Sampler.lastResample m.
Proof.
  intros m s.
  assert (State.wf s) as Hwf by (repeat split).
  assert (is_Some (Stub.sched !! 0)) as Hfirst by (eexists; reflexivity).
  split; [exact Hwf|]. split; [exact Hfirst|].
  exact (rejuvenate_frame Stub.sched Stub.rand Stub.filter Stub.adapter 0 1
           Stub.world m s Hwf Hfirst).
Defined.

End Rejuvenate.

(** ** Vectors *)

Lemma assign_defined {T : Type} (v : list T) (i : nat) (x : T) :
  i < length v → assign v i x = Ok (<[i:=x]> v).
Proof. intros Hi. unfold assign. by rewrite decide_True. Qed.

(** ** init *)

Module Init.

Section Init.
Context {Random X Out In A IO1 : Type}.
Variable sched : list ScheduleElement.
Variable filter : Filter.ops Random X Out In A.
Variable output : Output.ops X Out IO1.

Abbreviation World := (World.t Random).
Abbreviation Sampler := (Sampler.t A).
Abbreviation State := (State.t X Out).
Abbreviation S1 := (S1.t X).

Abbreviation init_calls := (MarginalSIR.init_calls filter).
Abbreviation init_particle := (MarginalSIR.init_particle sched filter).
Abbreviation init_particles := (MarginalSIR.init_particles sched filter).
Abbreviation init := (MarginalSIR.init sched filter output).

(** One iteration of the loop of [init], on a particle that exists. *)
Lemma init_particle_defined first inInit p (w : World) (s : State)
    (now : ScheduleElement) (s1 : S1) (out1 : Out) :
  sched !! first = Some now →
  State.s1s s !! p = Some s1 → State.out1s s !! p = Some out1 →
  p < length (State.logWeights s) → p < length (State.ancestors s) →
  init_particle first inInit p (w, s)
  = let c := init_calls now inInit (World.rng w) s1 out1 in
    Ok (World.called [CallInit p; CallOutput0 p; CallCorrect p; CallOutput p]
          (World.set_rng c.1.1 w),
        State.set_ancestors (<[p:=Z.of_nat p]> (State.ancestors s))
          (State.set_logWeights
             (<[p:=S1.logLikelihood c.1.2]> (State.logWeights s))
             (State.set_particle p c.1.2 c.2 s))).
Proof.
  intros Hnow Hs1 Hout1 Hlw Hanc. unfold MarginalSIR.init_particle.
  rewrite Hs1, Hout1, Hnow. cbn [defined]. rewrite !bind_Ok.
  destruct (MarginalSIR.init_calls _ _ _ _ _ _) as [[r2 s1b] o1b].
  rewrite !assign_defined by done. by rewrite !bind_Ok.
Qed.

(** The state the four calls leave is the one [filter.correct] returns,
    called on the state [filter.init] returns. *)
Lemma init_calls_state now inInit (r : Random) (s1 : S1) (out1 : Out) :
  ∃ r1 r2 s1a s1b o1a,
    Filter.init filter r now s1 out1 inInit = (r1, s1a, o1a)
    ∧ Filter.correct filter r1 now s1a = (r2, s1b)
    ∧ (init_calls now inInit r s1 out1).1 = (r2, s1b).
Proof.
  unfold MarginalSIR.init_calls.
  destruct (Filter.init _ _ _ _ _ _) as [[r1 s1a] o1a] eqn:Ei.
  destruct (Filter.correct _ _ _ _) as [r2 s1b] eqn:Ec.
  by exists r1, r2, s1a, s1b, o1a.
Qed.

(** C7: on a well-formed population whose schedule start exists, [init]
    returns, and afterwards, for every particle index [p] below [size],
    [logWeights[p]] is the log-likelihood of particle [p]'s state, which is
    the state [filter.correct] returned for it (after [filter.init]) at the
    first schedule element, and [ancestors[p] = p]; the output is cleared,
    [lastResample] is false and [lastAcceptRate] is 0. *)
Theorem init_spec (first : nat) (inInit : In) (w : World) (m : Sampler)
    (s : State) (out : IO1) (now : ScheduleElement)
    (Hwf : State.wf s) (Hfirst : sched !! first = Some now) :
  ∃ w' s',
    init first inInit (w, m, s, out)
    = Ok (w', Sampler.mk (Sampler.adapter m) (Sampler.nmoves m) false (Fin 0),
          s', Output.clear output out)
    ∧ State.size s' = State.size s
    ∧ State.wf s'
    ∧ ∀ p, p < State.size s →
        ∃ (s1 : S1) (out1 : Out) (r r1 r2 : Random) (s1a s1b : S1) (o1a : Out),
          State.s1s s !! p = Some s1
          ∧ State.out1s s !! p = Some out1
          ∧ Filter.init filter r now s1 out1 inInit = (r1, s1a, o1a)
          ∧ Filter.correct filter r1 now s1a = (r2, s1b)
          ∧ State.s1s s' !! p = Some s1b
          ∧ State.logWeights s' !! p = Some (S1.logLikelihood s1b)
          ∧ State.ancestors s' !! p = Some (Z.of_nat p).
Proof.
  set (post := λ (s' : State) (p : nat),
    ∃ (s1 : S1) (out1 : Out) (r r1 r2 : Random) (s1a s1b : S1) (o1a : Out),
      State.s1s s !! p = Some s1
      ∧ State.out1s s !! p = Some out1
      ∧ Filter.init filter r now s1 out1 inInit = (r1, s1a, o1a)
      ∧ Filter.correct filter r1 now s1a = (r2, s1b)
      ∧ State.s1s s' !! p = Some s1b
      ∧ State.logWeights s' !! p = Some (S1.logLikelihood s1b)
      ∧ State.ancestors s' !! p = Some (Z.of_nat p)).
  set (I := λ (k : nat) (ws : World * State),
    State.size ws.2 = State.size s ∧ State.wf ws.2
    ∧ (∀ p, p < k → post ws.2 p)
    ∧ (∀ p, k ≤ p → State.s1s ws.2 !! p = State.s1s s !! p
                    ∧ State.out1s ws.2 !! p = State.out1s s !! p)).
  destruct (for_loop_inv (init_particle first inInit) I (State.size s) (w, s))
    as ([w' s'] & Hloop & Hsz & Hwf' & Hpost & _).
  - repeat split; try done; try apply Hwf. intros p Hp. lia.
  - intros k [w1 s1] Hk (Hsz & Hwf1 & Hpost & Hrest). simpl in *.
    destruct Hwf1 as (Hl1 & Hl2 & Hl3 & Hl4).
    destruct (lookup_lt_is_Some_2 (State.s1s s1) k) as [x1 Hx1]; [lia|].
    destruct (lookup_lt_is_Some_2 (State.out1s s1) k) as [o1 Ho1]; [lia|].
    destruct (init_calls_state now inInit (World.rng w1) x1 o1)
      as (r1 & r2 & s1a & s1b & o1a & Hi & Hc & Hcalls).
    eexists (_, _). split.
    { apply (init_particle_defined first inInit k w1 s1 now x1 o1); try done; lia. }
    destruct (init_calls now inInit (World.rng w1) x1 o1) as [[r2' s1b'] o1b].
    simpl in Hcalls. injection Hcalls as -> ->.
    unfold I, post. simpl. split; [done|]. split.
    { unfold State.wf. simpl. by rewrite !length_insert. }
    split.
    + intros p Hp. destruct (decide (p = k)) as [->|Hne].
      * destruct (Hrest k) as [Hk1 Hk2]; [lia|].
        exists x1, o1, (World.rng w1), r1, r2, s1a, s1b, o1a.
        rewrite <- Hk1, <- Hk2.
        rewrite !list_lookup_insert_eq by lia. done.
      * destruct (Hpost p) as (y1&y2&y3&y4&y5&y6&y7&y8&?&?&?&?&?&?&?); [lia|].
        exists y1, y2, y3, y4, y5, y6, y7, y8.
        rewrite !list_lookup_insert_ne by done. done.
    + intros p Hp. rewrite !list_lookup_insert_ne by lia. apply Hrest. lia.
  - unfold MarginalSIR.init, MarginalSIR.init_particles.
    unfold for_loop in Hloop. rewrite Hloop, bind_Ok.
    exists w', s'. repeat split; try done; apply Hwf'.
Qed.

End Init.

(** A run of C7 on the stub filter: three particles, initialised at [t0]. *)
Lemma init_spec_witness :
  let s := Stub.pop 3 NInf NInf (Fin 0) (Fin 0) in
  let m := Stub.sampler 1 in
  let now := {| getTime := Fin 0; indexOutput := 0;
                indexObs := 0; isObserved := false |} in
  State.wf s ∧ Stub.sched !! 0 = Some now
  ∧ ∃ w' s',
      MarginalSIR.init Stub.sched Stub.filter Stub.output 0 tt
        (Stub.world, m, s, [tt; tt])
      = Ok (w', Sampler.mk (Sampler.adapter m) (Sampler.nmoves m) false (Fin 0),
            s', Output.clear Stub.output [tt; tt])
      ∧ State.size s' = State.size s
      ∧ State.wf s'
      ∧ ∀ p, p < State.size s →
          ∃ (s1 : S1.t unit) (out1 : unit) (r r1 r2 : nat)
            (s1a s1b : S1.t unit) (o1a : unit),
            State.s1s s !! p = Some s1
            ∧ State.out1s s !! p = Some out1
            ∧ Filter.init Stub.filter r now s1 out1 tt = (r1, s1a, o1a)
            ∧ Filter.correct Stub.filter r1 now s1a = (r2, s1b)
            ∧ State.s1s s' !! p = Some s1b
            ∧ State.logWeights s' !! p = Some (S1.logLikelihood s1b)
            ∧ State.ancestors s' !! p = Some (Z.of_nat p).
Proof.
  intros s m now.
  assert (State.wf s) as Hwf by (repeat split).
  split; [exact Hwf|]. split; [reflexivity|].
  exact (init_spec Stub.sched Stub.filter Stub.output 0 tt Stub.world m s
           [tt; tt] now Hwf eq_refl).
Defined.

End Init.

(** ** term *)

Module Term.

Lemma foldl_dadd_replicate (n : nat) (a x : R) :
  foldl dadd (Fin a) (replicate n (Fin x)) = Fin (a + INR n * x).
Proof.
  revert a. induction n as [|n IH]; intros a.
  - simpl. f_equal. lra.
  - rewrite S_INR. cbn [replicate foldl dadd]. rewrite IH. f_equal. lra.
Qed.

(** The log-sum-exp of [n > 0] equal finite terms [x] is [x + ln n]. *)
Lemma logsumexp_reduce_replicate (n : nat) (x : R) :
  0 < n → logsumexp_reduce (replicate n (Fin x)) = Fin (x + ln (INR n)).
Proof.
  intros Hn. unfold logsumexp_reduce.
  rewrite fmap_replicate. cbn [dexp]. rewrite foldl_dadd_replicate.
  assert (0 < INR n)%R as Hn' by (apply lt_0_INR; lia).
  pose proof (exp_pos x) as Hexp.
  assert (0 < 0 + INR n * exp x)%R as Hpos.
  { rewrite Rplus_0_l. by apply Rmult_lt_0_compat. }
  unfold dlog. destruct (Rlt_dec 0 (0 + INR n * exp x)) as [_|Hn0]; [|done].
  f_equal. rewrite Rplus_0_l, ln_mult, ln_exp by done. lra.
Qed.

(** The finalisation [logLikelihood += logsumexp(logWeights) - log(size)] on
    [n > 0] equal finite weights [x] adds [x]. *)
Lemma finalise_equal_weights (n : nat) (l x : R) :
  0 < n →
  (Fin l + (logsumexp_reduce (replicate n (Fin x))
            - dlog (double_of_int (Z.of_nat n))))%D = Fin (l + x).
Proof.
  intros Hn. rewrite logsumexp_reduce_replicate by done.
  unfold double_of_int, dlog. rewrite <- INR_IZR_INZ.
  assert (0 < INR n)%R as Hn' by (apply lt_0_INR; lia).
  destruct (Rlt_dec 0 (INR n)) as [_|Hn0]; [|done].
  simpl. f_equal. lra.
Qed.

Section Term.
Context {Random X Out In A : Type}.
Variable filter : Filter.ops Random X Out In A.

Abbreviation World := (World.t Random).
Abbreviation State := (State.t X Out).
Abbreviation S1 := (S1.t X).

Abbreviation samplePath_particle := (MarginalSIR.samplePath_particle filter).
Abbreviation term := (MarginalSIR.term filter).

(** C6: on a well-formed population [term] returns; it adds
    [logsumexp(logWeights) - log(size)] to [logLikelihood] and then calls
    [filter.samplePath] once for every particle, in index order, each
    particle's state and output becoming what the call returned for them.
    In particular, for a population of [size] 4 with all [logWeights] equal
    to 2.0 and [logLikelihood] 10.0 before the call, [logLikelihood] is 12.0
    after the call (finite values are exact in the model: rounding apart). *)
Theorem term_spec (w : World) (s : State) (Hwf : State.wf s) :
  ∃ w' s',
    term (w, s) = Ok (w', s')
    ∧ State.logLikelihood s'
      = (State.logLikelihood s
         + (logsumexp_reduce (State.logWeights s)
            - dlog (double_of_int (Z.of_nat (State.size s)))))%D
    ∧ State.logWeights s' = State.logWeights s
    ∧ State.size s' = State.size s
    ∧ World.calls w' = World.calls w ++ (CallSamplePath <$> seq 0 (State.size s))
    ∧ (∀ p, p < State.size s →
         ∃ (s1 : S1) (out1 : Out) (r : Random),
           State.s1s s !! p = Some s1
           ∧ State.out1s s !! p = Some out1
           ∧ State.s1s s' !! p = Some (Filter.samplePath filter r s1 out1).1.2
           ∧ State.out1s s' !! p = Some (Filter.samplePath filter r s1 out1).2)
    ∧ (State.size s = 4 →
       State.logWeights s = [Fin 2; Fin 2; Fin 2; Fin 2] →
       State.logLikelihood s = Fin 10 →
       State.logLikelihood s' = Fin 12).
Proof.
  set (l' := (State.logLikelihood s
              + (logsumexp_reduce (State.logWeights s)
                 - dlog (double_of_int (Z.of_nat (State.size s)))))%D).
  set (s0 := State.set_logLikelihood l' s).
  set (post := λ (s' : State) (p : nat),
    ∃ (s1 : S1) (out1 : Out) (r : Random),
      State.s1s s !! p = Some s1
      ∧ State.out1s s !! p = Some out1
      ∧ State.s1s s' !! p = Some (Filter.samplePath filter r s1 out1).1.2
      ∧ State.out1s s' !! p = Some (Filter.samplePath filter r s1 out1).2).
  set (I := λ (k : nat) (ws : World * State),
    State.logLikelihood ws.2 = l'
    ∧ State.logWeights ws.2 = State.logWeights s
    ∧ State.size ws.2 = State.size s
    ∧ length (State.s1s ws.2) = State.size s
    ∧ length (State.out1s ws.2) = State.size s
    ∧ World.calls ws.1 = World.calls w ++ (CallSamplePath <$> seq 0 k)
    ∧ (∀ p, p < k → post ws.2 p)
    ∧ (∀ p, k ≤ p → State.s1s ws.2 !! p = State.s1s s !! p
                    ∧ State.out1s ws.2 !! p = State.out1s s !! p)).
  destruct Hwf as (Hl1 & Hl2 & Hl3 & Hl4).
  destruct (for_loop_inv samplePath_particle I (State.size s) (w, s0))
    as ([w' s'] & Hloop & Hll & Hlw & Hsz & _ & _ & Hcalls & Hpost & _).
  - unfold I. simpl. rewrite app_nil_r. repeat split; try done. lia.
  - intros k [w1 s1] Hk (Hll & Hlw & Hsz & Hk1 & Hk2 & Hcalls & Hpost & Hrest).
    simpl in *.
    destruct (lookup_lt_is_Some_2 (State.s1s s1) k) as [x1 Hx1]; [lia|].
    destruct (lookup_lt_is_Some_2 (State.out1s s1) k) as [o1 Ho1]; [lia|].
    unfold MarginalSIR.samplePath_particle.
    rewrite Hx1, Ho1. cbn [defined]. rewrite !bind_Ok.
    destruct (Filter.samplePath filter (World.rng w1) x1 o1) as [[r' x1'] o1'] eqn:Esp.
    eexists (_, _). split; [done|].
    unfold I, post. simpl. rewrite !length_insert.
    repeat split; try done.
    + change (CallSamplePath 0 :: list_fmap nat Call CallSamplePath (seq 1 k))
        with (CallSamplePath <$> seq 0 (S k)).
      rewrite Hcalls, seq_S, fmap_app, <- app_assoc. done.
    + intros p Hp. destruct (decide (p = k)) as [->|Hne].
      * destruct (Hrest k) as [Hr1 Hr2]; [lia|].
        exists x1, o1, (World.rng w1). rewrite <- Hr1, <- Hr2, Esp.
        rewrite !list_lookup_insert_eq by lia. done.
      * destruct (Hpost p) as (y1&y2&y3&?&?&?&?); [lia|].
        exists y1, y2, y3. rewrite !list_lookup_insert_ne by done. done.
    + rewrite list_lookup_insert_ne by lia. apply Hrest. lia.
    + rewrite list_lookup_insert_ne by lia. apply Hrest. lia.
  - exists w', s'. unfold MarginalSIR.term. fold l'. fold s0.
    split; [exact Hloop|]. cbn [fst snd] in *. repeat split; try done.
    intros H4 Hws Hl. rewrite Hll. unfold l'. rewrite H4, Hws, Hl.
    change [Fin 2; Fin 2; Fin 2; Fin 2] with (replicate 4 (Fin 2)).
    rewrite (finalise_equal_weights 4 10 2) by lia. f_equal. lra.
Qed.

End Term.

(** A run of C6: four particles of log-weight 2.0, the log-likelihood 10.0
    before the call. *)
Lemma term_spec_witness :
  let s := Stub.pop 4 (Fin 0) (Fin 2) (Fin 0) (Fin 10) in
  State.wf s
  ∧ ∃ w' s',
      MarginalSIR.term Stub.filter (Stub.world, s) = Ok (w', s')
      ∧ State.logLikelihood s'
        = (State.logLikelihood s
           + (logsumexp_reduce (State.logWeights s)
              - dlog (double_of_int (Z.of_nat (State.size s)))))%D
      ∧ State.logWeights s' = State.logWeights s
      ∧ State.size s' = State.size s
      ∧ World.calls w'
        = World.calls Stub.world ++ (CallSamplePath <$> seq 0 (State.size s))
      ∧ (∀ p, p < State.size s →
           ∃ (s1 : S1.t unit) (out1 : unit) (r : nat),
             State.s1s s !! p = Some s1
             ∧ State.out1s s !! p = Some out1
             ∧ State.s1s s' !! p
               = Some (Filter.samplePath Stub.filter r s1 out1).1.2
             ∧ State.out1s s' !! p
               = Some (Filter.samplePath Stub.filter r s1 out1).2)
      ∧ (State.size s = 4 →
         State.logWeights s = [Fin 2; Fin 2; Fin 2; Fin 2] →
         State.logLikelihood s = Fin 10 →
         State.logLikelihood s' = Fin 12).
Proof.
  intros s.
  assert (State.wf s) as Hwf by (repeat split).
  split; [exact Hwf|].
  exact (term_spec Stub.filter Stub.world s Hwf).
Defined.

End Term.

(** ** The order of the particles *)

Module Order.

Section Order.
Context {Random X Out In A : Type}.
Variable sched : list ScheduleElement.
Variable filter : Filter.ops Random X Out In A.

Abbreviation World := (World.t Random).
Abbreviation State := (State.t X Out).
Abbreviation S1 := (S1.t X).

Abbreviation init_calls := (MarginalSIR.init_calls filter).
Abbreviation init_particle := (MarginalSIR.init_particle sched filter).
Abbreviation init_particles := (MarginalSIR.init_particles sched filter).
Abbreviation advance_particle := (MarginalSIR.advance_particle sched filter).
Abbreviation advance_particles := (MarginalSIR.advance_particles sched filter).

(** The generator and the population after one iteration of the loop of
    [init], from a generator and a population. *)
Abbreviation init_pop first inInit :=
  (λ (p : nat) (rs : Random * State),
     population <$> init_particle first inInit p (World.mk rs.1 [] [], rs.2)).

(** The same for the inner loop of [step]. *)
Abbreviation advance_pop iter last :=
  (λ (p : nat) (rs : Random * State),
     (λ st : World * State * option nat, population st.1)
       <$> advance_particle iter last p (World.mk rs.1 [] [], rs.2, None)).

(** The lines written and the calls recorded have no influence on the
    generator and the population. *)
Lemma init_particle_population first inInit p (ws : World * State) :
  population <$> init_particle first inInit p ws
  = init_pop first inInit p (population ws).
Proof.
  destruct ws as [[r c l] s]. unfold MarginalSIR.init_particle, population. simpl.
  destruct (State.s1s s !! p); simpl; [|done].
  destruct (State.out1s s !! p); simpl; [|done].
  destruct (sched !! first); simpl; [|done].
  destruct (MarginalSIR.init_calls _ _ _ _ _ _) as [[r2 s1b] o1b].
  destruct (assign _ _ _); simpl; try done.
  destruct (assign _ _ _); simpl; done.
Qed.

Lemma advance_particle_population iter last p (st : World * State * option nat) :
  (λ st : World * State * option nat, population st.1)
    <$> advance_particle iter last p st
  = advance_pop iter last p (population st.1).
Proof.
  destruct st as [[[r c l] s] i]. unfold MarginalSIR.advance_particle, population.
  simpl.
  destruct (State.s1s s !! p); simpl; [|done].
  destruct (State.out1s s !! p); simpl; [|done].
  destruct (Filter.step _ _ _ _ _ _) as [[[r1 i1] s1'] o1'].
  destruct (sched !! i1); simpl; [|done].
  destruct (S1.logIncrements s1' !! _); simpl; [|done].
  destruct (State.logWeights s !! p); simpl; [|done].
  destruct (assign _ _ _); simpl; done.
Qed.

Section Deterministic.
(** The member functions of the filter called in the two loops leave the
    generator as they found it. *)
Variable inInit : In.
Hypothesis init_rng : ∀ r now s1 out1,
  (Filter.init filter r now s1 out1 inInit).1.1 = r.
Hypothesis correct_rng : ∀ r now s1, (Filter.correct filter r now s1).1 = r.
Hypothesis step_rng : ∀ r i l s1 out1,
  (Filter.step filter r i l s1 out1).1.1.1 = r.

Lemma init_calls_rng now r (s1 : S1) (out1 : Out) :
  (init_calls now inInit r s1 out1).1.1 = r.
Proof.
  unfold MarginalSIR.init_calls.
  pose proof (init_rng r now s1 out1) as Hi.
  destruct (Filter.init _ _ _ _ _ _) as [[r1 s1a] o1a]. simpl in Hi. subst r1.
  pose proof (correct_rng r now s1a) as Hc.
  destruct (Filter.correct _ _ _ _) as [r2 s1b]. simpl in Hc. by subst r2.
Qed.

(** One iteration of the loop of [init] on the generator and the
    population. *)
Lemma init_pop_defined first p (r : Random) (s : State) now s1 out1 :
  sched !! first = Some now →
  State.s1s s !! p = Some s1 → State.out1s s !! p = Some out1 →
  p < length (State.logWeights s) → p < length (State.ancestors s) →
  init_pop first inInit p (r, s)
  = let c := init_calls now inInit r s1 out1 in
    Ok (r,
        State.set_ancestors (<[p:=Z.of_nat p]> (State.ancestors s))
          (State.set_logWeights
             (<[p:=S1.logLikelihood c.1.2]> (State.logWeights s))
             (State.set_particle p c.1.2 c.2 s))).
Proof.
  intros Hnow Hs1 Hout1 Hlw Hanc. cbn [fst snd].
  rewrite (Init.init_particle_defined sched filter first inInit p _ s now s1 out1)
    by done.
  cbn. unfold population. cbn. by rewrite init_calls_rng.
Qed.

Lemma init_pop_undefined first p (rs : Random * State) :
  sched !! first = None → init_pop first inInit p rs = Undefined.
Proof.
  intros Hnow. unfold MarginalSIR.init_particle. cbn [fst snd].
  destruct (State.s1s rs.2 !! p); simpl; [|done].
  destruct (State.out1s rs.2 !! p); simpl; [|done].
  by rewrite Hnow.
Qed.

(** Two iterations of the loop of [init] commute. *)
Lemma init_pop_commute first p q (r : Random) (s : State) :
  State.wf s → p < State.size s → q < State.size s →
  (init_pop first inInit p (r, s) ≫= init_pop first inInit q)
  = (init_pop first inInit q (r, s) ≫= init_pop first inInit p).
Proof.
  intros (Hl1 & Hl2 & Hl3 & Hl4) Hp Hq.
  destruct (decide (p = q)) as [->|Hne]; [done|].
  destruct (sched !! first) as [now|] eqn:Hnow.
  2:{ by rewrite !init_pop_undefined. }
  destruct (lookup_lt_is_Some_2 (State.s1s s) p) as [s1p Hs1p]; [lia|].
  destruct (lookup_lt_is_Some_2 (State.out1s s) p) as [o1p Ho1p]; [lia|].
  destruct (lookup_lt_is_Some_2 (State.s1s s) q) as [s1q Hs1q]; [lia|].
  destruct (lookup_lt_is_Some_2 (State.out1s s) q) as [o1q Ho1q]; [lia|].
  rewrite (init_pop_defined first p r s now s1p o1p) by (done || lia).
  rewrite (init_pop_defined first q r s now s1q o1q) by (done || lia).
  cbn zeta. rewrite !bind_Ok.
  rewrite (init_pop_defined first q r _ now s1q o1q);
    [|done|simpl; by rewrite list_lookup_insert_ne
      |simpl; by rewrite list_lookup_insert_ne
      |simpl; rewrite length_insert; lia|simpl; rewrite length_insert; lia].
  rewrite (init_pop_defined first p r _ now s1p o1p);
    [|done|simpl; by rewrite list_lookup_insert_ne
      |simpl; by rewrite list_lookup_insert_ne
      |simpl; rewrite length_insert; lia|simpl; rewrite length_insert; lia].
  cbn zeta. unfold State.set_ancestors, State.set_logWeights, State.set_particle.
  simpl. do 2 f_equal. f_equal; by apply list_insert_insert_ne.
Qed.

Lemma init_pop_wf first p (r r' : Random) (s s' : State) :
  State.wf s → p < State.size s →
  init_pop first inInit p (r, s) = Ok (r', s') →
  State.wf s' ∧ State.size s' = State.size s.
Proof.
  intros (Hl1 & Hl2 & Hl3 & Hl4) Hp.
  destruct (sched !! first) as [now|] eqn:Hnow.
  2:{ by rewrite init_pop_undefined. }
  destruct (lookup_lt_is_Some_2 (State.s1s s) p) as [s1p Hs1p]; [lia|].
  destruct (lookup_lt_is_Some_2 (State.out1s s) p) as [o1p Ho1p]; [lia|].
  rewrite (init_pop_defined first p r s now s1p o1p) by (done || lia).
  cbn zeta. intros [= <- <-]. unfold State.wf. simpl.
  by rewrite !length_insert.
Qed.

(** One iteration of the inner loop of [step] on the generator and the
    population. *)
Lemma advance_pop_eq iter last p (r : Random) (s : State) s1 out1 lw :
  State.s1s s !! p = Some s1 → State.out1s s !! p = Some out1 →
  State.logWeights s !! p = Some lw →
  advance_pop iter last p (r, s)
  = let c := Filter.step filter r iter last s1 out1 in
    now1 ← defined (sched !! c.1.1.2);
    inc ← defined (S1.logIncrements c.1.2 !! indexObs now1);
    Ok (r,
        State.set_logWeights (<[p:=(lw + inc)%D]> (State.logWeights s))
          (State.set_particle p c.1.2 c.2 s)).
Proof.
  intros Hs1 Hout1 Hlw. unfold MarginalSIR.advance_particle. cbn [fst snd].
  rewrite Hs1, Hout1. cbn [defined]. rewrite !bind_Ok.
  pose proof (step_rng r iter last s1 out1) as Hr.
  destruct (Filter.step _ _ _ _ _ _) as [[[r1 i1] s1'] o1']. simpl in Hr. subst r1.
  cbn [fst snd].
  destruct (sched !! i1) as [now1|]; simpl; [|done].
  destruct (S1.logIncrements s1' !! indexObs now1) as [inc|]; simpl; [|done].
  rewrite Hlw. simpl. rewrite assign_defined by (by eapply lookup_lt_Some).
  done.
Qed.

Lemma advance_pop_wf iter last p (r r' : Random) (s s' : State) :
  State.wf s → p < State.size s →
  advance_pop iter last p (r, s) = Ok (r', s') →
  State.wf s' ∧ State.size s' = State.size s.
Proof.
  intros (Hl1 & Hl2 & Hl3 & Hl4) Hp.
  destruct (lookup_lt_is_Some_2 (State.s1s s) p) as [s1p Hs1p]; [lia|].
  destruct (lookup_lt_is_Some_2 (State.out1s s) p) as [o1p Ho1p]; [lia|].
  destruct (lookup_lt_is_Some_2 (State.logWeights s) p) as [lwp Hlwp]; [lia|].
  rewrite (advance_pop_eq iter last p r s s1p o1p lwp) by done.
  cbn zeta.
  destruct (sched !! _) as [now1|]; simpl; [|done].
  destruct (S1.logIncrements _ !! indexObs now1) as [inc|]; simpl; [|done].
  intros [= <- <-]. unfold State.wf. simpl. by rewrite !length_insert.
Qed.

(** Two iterations of the inner loop of [step] commute. *)
Lemma advance_pop_commute iter last p q (r : Random) (s : State) :
  State.wf s → p < State.size s → q < State.size s →
  (advance_pop iter last p (r, s) ≫= advance_pop iter last q)
  = (advance_pop iter last q (r, s) ≫= advance_pop iter last p).
Proof.
  intros (Hl1 & Hl2 & Hl3 & Hl4) Hp Hq.
  destruct (decide (p = q)) as [->|Hne]; [done|].
  destruct (lookup_lt_is_Some_2 (State.s1s s) p) as [s1p Hs1p]; [lia|].
  destruct (lookup_lt_is_Some_2 (State.out1s s) p) as [o1p Ho1p]; [lia|].
  destruct (lookup_lt_is_Some_2 (State.logWeights s) p) as [lwp Hlwp]; [lia|].
  destruct (lookup_lt_is_Some_2 (State.s1s s) q) as [s1q Hs1q]; [lia|].
  destruct (lookup_lt_is_Some_2 (State.out1s s) q) as [o1q Ho1q]; [lia|].
  destruct (lookup_lt_is_Some_2 (State.logWeights s) q) as [lwq Hlwq]; [lia|].
  rewrite (advance_pop_eq iter last p r s s1p o1p lwp) by done.
  rewrite (advance_pop_eq iter last q r s s1q o1q lwq) by done.
  cbn zeta.
  destruct (sched !! (Filter.step filter r iter last s1p o1p).1.1.2)
    as [nowp|] eqn:Enp;
    destruct (sched !! (Filter.step filter r iter last s1q o1q).1.1.2)
      as [nowq|] eqn:Enq; cbn [defined]; rewrite ?bind_Ok;
    try destruct (S1.logIncrements (Filter.step filter r iter last s1p o1p).1.2
                    !! indexObs nowp) as [incp|] eqn:Eip;
    try destruct (S1.logIncrements (Filter.step filter r iter last s1q o1q).1.2
                    !! indexObs nowq) as [incq|] eqn:Eiq;
    cbn [defined]; rewrite ?bind_Ok;
    try (rewrite (advance_pop_eq iter last q r _ s1q o1q lwq)
           by (simpl; by rewrite list_lookup_insert_ne));
    try (rewrite (advance_pop_eq iter last p r _ s1p o1p lwp)
           by (simpl; by rewrite list_lookup_insert_ne));
    cbn zeta; rewrite ?Enp, ?Enq; cbn [defined]; rewrite ?bind_Ok;
    rewrite ?Eip, ?Eiq; cbn [defined]; rewrite ?bind_Ok; try done.
  unfold State.set_logWeights, State.set_particle. simpl.
  do 2 f_equal. f_equal; by apply list_insert_insert_ne.
Qed.


End Deterministic.

End Order.



End Order.

(** ** step *)

Module Step.

Section Step.
Context {Random X Out In A : Type}.
Variable sched : list ScheduleElement.
Variable rand : Random.ops Random.
Variable filter : Filter.ops Random X Out In A.
Variable adapter : Adapter.ops X Out A.
Variable resam : Resampler.ops Random X Out.
Variable ess_reduce : list double → double * double.

Abbreviation World := (World.t Random).
Abbreviation Sampler := (Sampler.t A).
Abbreviation State := (State.t X Out).
Abbreviation S1 := (S1.t X).

Abbreviation adapt := (MarginalSIR.adapt adapter).
Abbreviation resample := (MarginalSIR.resample resam).
Abbreviation rejuvenate := (MarginalSIR.rejuvenate sched rand filter adapter).
Abbreviation report := (@MarginalSIR.report Random X Out A).
Abbreviation advance_particle := (MarginalSIR.advance_particle sched filter).
Abbreviation advance_particles := (MarginalSIR.advance_particles sched filter).
Abbreviation pass := (MarginalSIR.pass sched rand filter adapter resam).
Abbreviation continue := (MarginalSIR.continue sched).
Abbreviation passes := (MarginalSIR.passes sched rand filter adapter resam).
Abbreviation repeat_pass :=
  (MarginalSIR.repeat_pass sched rand filter adapter resam).
Abbreviation finish := (MarginalSIR.finish sched ess_reduce).
Abbreviation step := (MarginalSIR.step sched rand filter adapter resam ess_reduce).

(** What the collaborators are relied on for: [filter.step] moves the
    iterator one schedule element forward and records an increment at the
    observation index of the element it reaches; the resampler returns a
    population [step] can work on. *)
Hypothesis step_advances : ∀ r i l (s1 : S1) (out1 : Out),
  (Filter.step filter r i l s1 out1).1.1.2 = S i.
Hypothesis step_records : ∀ r i l (s1 : S1) (out1 : Out) now1,
  sched !! S i = Some now1 →
  indexObs now1 < length (S1.logIncrements (Filter.step filter r i l s1 out1).1.2).
Hypothesis resample_steppable : ∀ r now (s : State),
  steppable sched s → steppable sched (Resampler.resample resam r now s).2.

Lemma steppable_frame (s s' : State) :
  frame s s' → steppable sched s → steppable sched s'.
Proof.
  intros Hf (Hwf & Hsz & Hincs). pose proof (Rejuvenate.frame_wf _ _ Hf Hwf).
  destruct Hf as (Hsz' & _ & _ & _ & _ & Hincs' & _).
  split; [done|]. split; [lia|]. by rewrite Hincs'.
Qed.

(** The inner loop of [step]: every particle's filter is called from the
    position [iter], reaches [iter + 1], and the increment it recorded for
    that element is added to the particle's log-weight. *)
Lemma advance_particles_defined iter last (w : World) (s : State)
    (iter1 : option nat) (now1 : ScheduleElement) :
  State.wf s → sched !! S iter = Some now1 →
  ∃ w' s',
    advance_particles iter last (seq 0 (State.size s)) (w, s, iter1)
    = Ok (w', s', if decide (State.size s = 0) then iter1 else Some (S iter))
    ∧ State.wf s' ∧ State.size s' = State.size s
    ∧ State.logIncrements s' = State.logIncrements s
    ∧ State.logLikelihood s' = State.logLikelihood s
    ∧ World.cerr w' = World.cerr w
    ∧ ∀ p, p < State.size s → advanced sched filter iter last s s' p.
Proof.
  intros Hwf Hnow1.
  set (I := λ (k : nat) (st : World * State * option nat),
    State.wf st.1.2 ∧ State.size st.1.2 = State.size s
    ∧ State.logIncrements st.1.2 = State.logIncrements s
    ∧ State.logLikelihood st.1.2 = State.logLikelihood s
    ∧ World.cerr st.1.1 = World.cerr w
    ∧ st.2 = (if decide (k = 0) then iter1 else Some (S iter))
    ∧ (∀ p, p < k → advanced sched filter iter last s st.1.2 p)
    ∧ (∀ p, k ≤ p → State.s1s st.1.2 !! p = State.s1s s !! p
                    ∧ State.out1s st.1.2 !! p = State.out1s s !! p
                    ∧ State.logWeights st.1.2 !! p = State.logWeights s !! p)).
  destruct (for_loop_inv (advance_particle iter last) I (State.size s) (w, s, iter1))
    as ([[w' s'] i'] & Hloop & Hwf' & Hsz & Hincs & Hll & Hcerr & Hi & Hpost & _).
  - unfold I. simpl. split_and!; try done. intros p Hp. lia.
  - intros k [[w1 s1] i1] Hk (Hwf1 & Hsz & Hincs & Hll & Hcerr & Hi & Hpost & Hrest).
    simpl in *. destruct Hwf1 as (Hl1 & Hl2 & Hl3 & Hl4).
    destruct (lookup_lt_is_Some_2 (State.s1s s1) k) as [x1 Hx1]; [lia|].
    destruct (lookup_lt_is_Some_2 (State.out1s s1) k) as [o1 Ho1]; [lia|].
    destruct (lookup_lt_is_Some_2 (State.logWeights s1) k) as [lw Hlw]; [lia|].
    unfold MarginalSIR.advance_particle.
    rewrite Hx1, Ho1. cbn [defined]. rewrite !bind_Ok.
    pose proof (step_advances (World.rng w1) iter last x1 o1) as Hadv.
    pose proof (step_records (World.rng w1) iter last x1 o1 now1 Hnow1) as Hrec.
    destruct (Filter.step filter (World.rng w1) iter last x1 o1)
      as [[[r' i''] x1'] o1'] eqn:Estep.
    simpl in Hadv, Hrec. subst i''. rewrite Hnow1. cbn [defined]. rewrite bind_Ok.
    destruct (lookup_lt_is_Some_2 (S1.logIncrements x1') (indexObs now1))
      as [inc Hinc]; [done|].
    rewrite Hinc, Hlw. cbn [defined]. rewrite !bind_Ok.
    rewrite assign_defined by lia. rewrite bind_Ok.
    eexists (_, _, _). split; [done|].
    unfold I. simpl. split.
    { unfold State.wf. simpl. by rewrite !length_insert. }
    split_and!; try done.
    + intros p Hp. destruct (decide (p = k)) as [->|Hne].
      * destruct (Hrest k) as (Hr1 & Hr2 & Hr3); [lia|].
        exists x1, o1, lw, inc, (World.rng w1), now1.
        rewrite <- Hr1, <- Hr2, <- Hr3, Estep. simpl.
        rewrite !list_lookup_insert_eq by lia. done.
      * destruct (Hpost p) as (y1&y2&y3&y4&y5&y6&?&?&?&?&?&?&?&?); [lia|].
        exists y1, y2, y3, y4, y5, y6. simpl.
        rewrite !list_lookup_insert_ne by done. done.
    + intros p Hp. rewrite !list_lookup_insert_ne by lia. apply Hrest. lia.
  - exists w', s'. simpl in *. subst i'.
    unfold MarginalSIR.advance_particles. unfold for_loop in Hloop.
    rewrite Hloop. split_and!; try done; apply Hwf'.
Qed.

(** One pass of the loop of [step]: [adapt], [resample] at the current
    element, [rejuvenate] up to the next one, [report], and the inner loop
    over the particles; the iterator is then one element further. *)
Lemma pass_defined first iter last (iter1 : option nat) (w : World)
    (m : Sampler) (s : State) (now now1 : ScheduleElement) :
  steppable sched s → is_Some (sched !! first) →
  sched !! iter = Some now → sched !! S iter = Some now1 →
  ∃ w2 m2 s2 w3 s3,
    rejuvenate first (iter + 1) (resample now (w, adapt s m, s)) = Ok (w2, m2, s2)
    ∧ pass first iter last iter1 (w, m, s) = Ok (w3, m2, s3, S iter)
    ∧ World.cerr w3 = World.cerr (report now m2 s2 w2)
    ∧ (∀ p, p < State.size s2 → advanced sched filter iter last s2 s3 p)
    ∧ steppable sched s3.
Proof.
  intros Hs Hfirst Hnow Hnow1. unfold MarginalSIR.pass.
  rewrite Hnow. cbn [defined]. rewrite bind_Ok.
  unfold MarginalSIR.resample at 1 2.
  pose proof (resample_steppable (World.rng w) now s Hs) as Hs1.
  destruct (Resampler.resample resam (World.rng w) now s) as [[b r] s1].
  simpl in Hs1.
  set (m1 := Sampler.mk (Sampler.adapter (adapt s m)) (Sampler.nmoves (adapt s m))
               b (Sampler.lastAcceptRate (adapt s m))).
  destruct (Rejuvenate.rejuvenate_total sched rand filter adapter first (iter + 1)
              (World.set_rng r w) m1 s1)
    as (w2 & rate & s2 & Hrej & Hf); [apply Hs1|done|].
  set (m2 := Sampler.mk (Sampler.adapter m1) (Sampler.nmoves m1)
               (Sampler.lastResample m1) rate) in *.
  pose proof (steppable_frame _ _ Hf Hs1) as Hs2.
  rewrite Hrej, bind_Ok.
  destruct (advance_particles_defined iter last (report now m2 s2 w2) s2 iter1 now1)
    as (w3 & s3 & Hadv & Hwf3 & Hsz3 & Hincs3 & _ & Hcerr & Hpost);
    [apply Hs2|done|].
  destruct Hs2 as (Hwf2 & Hpos2 & Hobs2).
  rewrite decide_False in Hadv by lia.
  exists w2, m2, s2, w3, s3. split; [done|].
  split; [by rewrite Hadv, bind_Ok|].
  split; [done|]. split; [done|].
  split; [done|]. split; [lia|]. by rewrite Hincs3.
Qed.

Lemma continue_eq iter last (now : ScheduleElement) :
  sched !! iter = Some now →
  continue iter last
  = Ok (if decide (iter + 1 = last) then false else negb (isObserved now)).
Proof.
  intros Hnow. unfold MarginalSIR.continue.
  destruct (decide (iter + 1 = last)) as [->|Hne].
  - by rewrite decide_False by (intros ?; done).
  - rewrite decide_True by done. by rewrite Hnow.
Qed.

(** The loop of [step] makes its passes one schedule element at a time and
    stops at the first element [iter'] after [iter] that is the last of the
    schedule or is observed: [iter' - iter] passes are made. *)
Lemma passes_spec first last (n : nat) :
  is_Some (sched !! first) → last ≤ length sched →
  ∀ iter (iter1 : option nat) (w : World) (m : Sampler) (s : State),
    steppable sched s → iter + 1 < last → n = last - 1 - iter →
    ∃ w' m' s' iter' now',
      iter < iter' < last
      ∧ sched !! iter' = Some now'
      ∧ (iter' + 1 = last ∨ isObserved now' = true)
      ∧ (∀ j nowj, iter < j < iter' → sched !! j = Some nowj →
           isObserved nowj = false)
      ∧ steppable sched s'
      ∧ (∀ fuel, iter' - iter ≤ fuel →
           passes fuel first iter last iter1 (w, m, s) = Ok (w', m', s', iter'))
      ∧ (∀ fuel, fuel < iter' - iter →
           passes fuel first iter last iter1 (w, m, s) = OutOfFuel).
Proof.
  intros Hfirst Hlast. induction n as [|n IH];
    intros iter iter1 w m s Hs Hiter Hn; [lia|].
  destruct (lookup_lt_is_Some_2 sched iter) as [now Hnow]; [lia|].
  destruct (lookup_lt_is_Some_2 sched (S iter)) as [now1 Hnow1]; [lia|].
  destruct (pass_defined first iter last iter1 w m s now now1 Hs Hfirst Hnow Hnow1)
    as (w2 & m2 & s2 & w3 & s3 & _ & Hpass & _ & _ & Hs3).
  assert (∀ fuel, passes (S fuel) first iter last iter1 (w, m, s)
          = if decide (S iter + 1 = last) then Ok (w3, m2, s3, S iter)
            else if isObserved now1 then Ok (w3, m2, s3, S iter)
            else passes fuel first (S iter) last (Some (S iter)) (w3, m2, s3))
    as Hunfold.
  { intros fuel. cbn [MarginalSIR.passes]. rewrite Hpass, bind_Ok.
    rewrite (continue_eq (S iter) last now1 Hnow1), bind_Ok.
    destruct (decide (S iter + 1 = last)); [done|].
    by destruct (isObserved now1). }
  destruct (decide (S iter + 1 = last)) as [Hend|Hmore].
  { exists w3, m2, s3, (S iter), now1.
    split_and!; [lia|lia|done|by left|intros j nowj Hj; lia|done| |].
    - intros [|fuel] Hfuel; [lia|]. by rewrite Hunfold.
    - intros fuel Hfuel. by replace fuel with 0 by lia. }
  destruct (isObserved now1) eqn:Hobs.
  { exists w3, m2, s3, (S iter), now1.
    split_and!; [lia|lia|done|by right|intros j nowj Hj; lia|done| |].
    - intros [|fuel] Hfuel; [lia|]. by rewrite Hunfold.
    - intros fuel Hfuel. by replace fuel with 0 by lia. }
  destruct (IH (S iter) (Some (S iter)) w3 m2 s3 Hs3)
    as (w' & m' & s' & iter' & now' & Hrange & Hnow' & Hexit & Hbefore & Hs'
        & Henough & Hshort); [lia|lia|].
  exists w', m', s', iter', now'.
  split_and!; [lia|lia|done|done| |done| |].
  - intros j nowj Hj Hnowj. destruct (decide (j = S iter)) as [->|Hne].
    + congruence.
    + apply (Hbefore j nowj); [lia|done].
  - intros [|fuel] Hfuel; [lia|]. rewrite Hunfold. apply Henough. lia.
  - intros [|fuel] Hfuel; [done|]. rewrite Hunfold. apply Hshort. lia.
Qed.

(** What the loop of [step] returns is what its passes, made one after the
    other from the position and the state of the call, give: as many passes
    as the iterator moved. *)
Lemma passes_repeat first last :
  is_Some (sched !! first) → last ≤ length sched →
  ∀ fuel iter (iter1 : option nat) (w : World) (m : Sampler) (s : State)
    (r : World * Sampler * State * nat),
    steppable sched s → iter + 1 < last →
    passes fuel first iter last iter1 (w, m, s) = Ok r →
    iter < r.2
    ∧ repeat_pass (r.2 - iter) first iter last iter1 (w, m, s) = Ok r.
Proof.
  intros Hfirst Hlast. induction fuel as [|fuel IH];
    intros iter iter1 w m s r Hs Hiter Hrun; [done|].
  destruct (lookup_lt_is_Some_2 sched iter) as [now Hnow]; [lia|].
  destruct (lookup_lt_is_Some_2 sched (S iter)) as [now1 Hnow1]; [lia|].
  destruct (pass_defined first iter last iter1 w m s now now1 Hs Hfirst Hnow Hnow1)
    as (w2 & m2 & s2 & w3 & s3 & _ & Hpass & _ & _ & Hs3).
  cbn [MarginalSIR.passes] in Hrun. rewrite Hpass, bind_Ok in Hrun.
  rewrite (continue_eq (S iter) last now1 Hnow1), bind_Ok in Hrun.
  assert (∀ n, repeat_pass (S n) first iter last iter1 (w, m, s)
               = repeat_pass n first (S iter) last (Some (S iter)) (w3, m2, s3))
    as Hunfold.
  { intros n. cbn [MarginalSIR.repeat_pass]. by rewrite Hpass, bind_Ok. }
  destruct (decide (S iter + 1 = last)) as [Hend|Hmore].
  { injection Hrun as <-. simpl. split; [lia|].
    replace (S iter - iter) with 1 by lia. by rewrite Hunfold. }
  destruct (isObserved now1); simpl in Hrun.
  { injection Hrun as <-. simpl. split; [lia|].
    replace (S iter - iter) with 1 by lia. by rewrite Hunfold. }
  destruct (IH (S iter) (Some (S iter)) w3 m2 s3 r Hs3) as [Hlt Hrep];
    [lia|done|].
  split; [lia|].
  replace (r.2 - iter) with (S (r.2 - S iter)) by lia. by rewrite Hunfold.
Qed.

Lemma finish_defined iter (s : State) (now : ScheduleElement) :
  sched !! iter = Some now → indexObs now < length (State.logIncrements s) →
  finish iter s
  = Ok (State.set_logLikelihood (ess_reduce (State.logWeights s)).2
          (State.set_logIncrements
             (<[indexObs now :=
                  ((ess_reduce (State.logWeights s)).2 - State.logLikelihood s)%D]>
                (State.logIncrements s))
             (State.set_ess (ess_reduce (State.logWeights s)).1 s))).
Proof.
  intros Hnow Hlen. unfold MarginalSIR.finish.
  destruct (ess_reduce (State.logWeights s)) as [e lW]. simpl.
  rewrite Hnow. cbn [defined]. rewrite bind_Ok.
  rewrite assign_defined by done. by rewrite bind_Ok.
Qed.

(** C5: with a filter whose [step] moves the iterator one element forward
    and a resampler that returns a population [step] can work on, [step]
    called before the end of the schedule returns.  A pass ([pass]) is:
    adapt, resample at the current element, rejuvenate up to the next one,
    report, then the filter step of every particle from the current
    position, with the increment added to the particle's log-weight
    ([advanced]); it moves the iterator one element forward.  [step] repeats
    it until the schedule is exhausted
    ([iter' + 1 = last]) or the current element is observed: [iter'] is the
    first such element after [iter], and [iter' - iter] passes are made
    (less fuel than that runs out, that much is enough).  What the loop
    returns is what these [iter' - iter] passes give when they are made one
    after the other from the state and the position of the call
    ([repeat_pass]).  From the population
    [sx] at the loop's exit it sets [ess] and the combined log-weight [lW]
    by [ess_reduce] on [logWeights], sets [logIncrements] at the observation
    index of the current element to [lW - logLikelihood], and then sets
    [logLikelihood] to [lW]. *)
Theorem step_spec (first iter last : nat) (w : World) (m : Sampler) (s : State)
    (Hs : steppable sched s) (Hfirst : is_Some (sched !! first))
    (Hlast : last ≤ length sched) (Hiter : iter + 1 < last) :
  (∀ j (iter1 : option nat) (w0 : World) (m0 : Sampler) (s0 : State) nowj,
     steppable sched s0 → sched !! j = Some nowj → S j < length sched →
     ∃ w2 m2 s2 w3 s3,
       rejuvenate first (j + 1) (resample nowj (w0, adapt s0 m0, s0))
       = Ok (w2, m2, s2)
       ∧ pass first j last iter1 (w0, m0, s0) = Ok (w3, m2, s3, S j)
       ∧ World.cerr w3 = World.cerr (report nowj m2 s2 w2)
       ∧ ∀ p, p < State.size s2 → advanced sched filter j last s2 s3 p)
  ∧ ∃ w' m' (sx s' : State) iter' now',
    iter < iter' < last
    ∧ sched !! iter' = Some now'
    ∧ (iter' + 1 = last ∨ isObserved now' = true)
    ∧ (∀ j nowj, iter < j < iter' → sched !! j = Some nowj →
         isObserved nowj = false)
    ∧ (∀ fuel, iter' - iter ≤ fuel →
         passes fuel first iter last None (w, m, s) = Ok (w', m', sx, iter')
         ∧ step fuel first iter last (w, m, s) = Ok (w', m', s', iter'))
    ∧ (∀ fuel, fuel < iter' - iter →
         step fuel first iter last (w, m, s) = OutOfFuel)
    ∧ repeat_pass (iter' - iter) first iter last None (w, m, s)
      = Ok (w', m', sx, iter')
    ∧ State.ess s' = (ess_reduce (State.logWeights sx)).1
    ∧ State.logIncrements s'
      = <[indexObs now' :=
            ((ess_reduce (State.logWeights sx)).2 - State.logLikelihood sx)%D]>
          (State.logIncrements sx)
    ∧ State.logLikelihood s' = (ess_reduce (State.logWeights sx)).2
    ∧ State.logWeights s' = State.logWeights sx
    ∧ State.ancestors s' = State.ancestors sx
    ∧ State.s1s s' = State.s1s sx
    ∧ State.out1s s' = State.out1s sx.
Proof.
  split.
  { intros j iter1 w0 m0 s0 nowj Hs0 Hnowj Hj.
    destruct (lookup_lt_is_Some_2 sched (S j)) as [nowj1 Hnowj1]; [done|].
    destruct (pass_defined first j last iter1 w0 m0 s0 nowj nowj1 Hs0 Hfirst
                Hnowj Hnowj1) as (w2 & m2 & s2 & w3 & s3 & ? & ? & ? & ? & _).
    by exists w2, m2, s2, w3, s3. }
  destruct (passes_spec first last (last - 1 - iter) Hfirst Hlast iter None w m s)
    as (w' & m' & sx & iter' & now' & Hrange & Hnow' & Hexit & Hbefore & Hsx
        & Henough & Hshort); [done|done|done|].
  assert (indexObs now' < length (State.logIncrements sx)) as Hlen.
  { apply Hsx. by eapply list_elem_of_lookup_2. }
  pose proof (finish_defined iter' sx now' Hnow' Hlen) as Hfin.
  set (lW := (ess_reduce (State.logWeights sx)).2) in *.
  exists w', m', sx,
    (State.set_logLikelihood lW
       (State.set_logIncrements
          (<[indexObs now' := (lW - State.logLikelihood sx)%D]>
             (State.logIncrements sx))
          (State.set_ess (ess_reduce (State.logWeights sx)).1 sx))),
    iter', now'.
  split_and!; [lia|lia|done|done|done| | | |done..].
  - intros fuel Hfuel. split; [by apply Henough|].
    unfold MarginalSIR.step. rewrite (Henough fuel Hfuel), bind_Ok.
    rewrite Hfin, bind_Ok. done.
  - intros fuel Hfuel. unfold MarginalSIR.step. by rewrite (Hshort fuel Hfuel).
  - apply (passes_repeat first last Hfirst Hlast (iter' - iter) iter None w m s
             (w', m', sx, iter') Hs Hiter).
    by apply Henough.
Qed.

End Step.

(** A run of C5 on the stub collaborators: three particles, the schedule
    [t0] (not observed), [t1] (observed), one move per particle. *)
Lemma step_spec_witness :
  let s := Stub.pop 3 (Fin 0) (Fin 0) NInf (Fin 0) in
  let m := Stub.sampler 1 in
  (∀ r i l (s1 : S1.t unit) (out1 : unit),
     (Filter.step Stub.filter r i l s1 out1).1.1.2 = S i)
  ∧ (∀ r i l (s1 : S1.t unit) (out1 : unit) now1,
       Stub.sched !! S i = Some now1 →
       indexObs now1
       < length (S1.logIncrements (Filter.step Stub.filter r i l s1 out1).1.2))
  ∧ (∀ r now (s : State.t unit unit),
       steppable Stub.sched s →
       steppable Stub.sched (Resampler.resample Stub.resam r now s).2)
  ∧ steppable Stub.sched s
  ∧ is_Some (Stub.sched !! 0)
  ∧ 2 ≤ length Stub.sched
  ∧ 0 + 1 < 2
  ∧ (∀ j (iter1 : option nat) (w0 : World.t nat) (m0 : Sampler.t unit)
       (s0 : State.t unit unit) nowj,
       steppable Stub.sched s0 → Stub.sched !! j = Some nowj →
       S j < length Stub.sched →
       ∃ w2 m2 s2 w3 s3,
         MarginalSIR.rejuvenate Stub.sched Stub.rand Stub.filter Stub.adapter
           0 (j + 1)
           (MarginalSIR.resample Stub.resam nowj
              (w0, MarginalSIR.adapt Stub.adapter s0 m0, s0))
         = Ok (w2, m2, s2)
         ∧ MarginalSIR.pass Stub.sched Stub.rand Stub.filter Stub.adapter
             Stub.resam 0 j 2 iter1 (w0, m0, s0) = Ok (w3, m2, s3, S j)
         ∧ World.cerr w3 = World.cerr (MarginalSIR.report nowj m2 s2 w2)
         ∧ ∀ p, p < State.size s2 →
             advanced Stub.sched Stub.filter j 2 s2 s3 p)
  ∧ ∃ w' m' (sx s' : State.t unit unit) iter' now',
      0 < iter' < 2
      ∧ Stub.sched !! iter' = Some now'
      ∧ (iter' + 1 = 2 ∨ isObserved now' = true)
      ∧ (∀ j nowj, 0 < j < iter' → Stub.sched !! j = Some nowj →
           isObserved nowj = false)
      ∧ (∀ fuel, iter' - 0 ≤ fuel →
           MarginalSIR.passes Stub.sched Stub.rand Stub.filter Stub.adapter
             Stub.resam fuel 0 0 2 None (Stub.world, m, s)
           = Ok (w', m', sx, iter')
           ∧ MarginalSIR.step Stub.sched Stub.rand Stub.filter Stub.adapter
               Stub.resam Stub.ess_reduce fuel 0 0 2 (Stub.world, m, s)
             = Ok (w', m', s', iter'))
      ∧ (∀ fuel, fuel < iter' - 0 →
           MarginalSIR.step Stub.sched Stub.rand Stub.filter Stub.adapter
             Stub.resam Stub.ess_reduce fuel 0 0 2 (Stub.world, m, s)
           = OutOfFuel)
      ∧ MarginalSIR.repeat_pass Stub.sched Stub.rand Stub.filter Stub.adapter
          Stub.resam (iter' - 0) 0 0 2 None (Stub.world, m, s)
        = Ok (w', m', sx, iter')
      ∧ State.ess s' = (Stub.ess_reduce (State.logWeights sx)).1
      ∧ State.logIncrements s'
        = <[indexObs now' :=
              ((Stub.ess_reduce (State.logWeights sx)).2
               - State.logLikelihood sx)%D]>
            (State.logIncrements sx)
      ∧ State.logLikelihood s' = (Stub.ess_reduce (State.logWeights sx)).2
      ∧ State.logWeights s' = State.logWeights sx
      ∧ State.ancestors s' = State.ancestors sx
      ∧ State.s1s s' = State.s1s sx
      ∧ State.out1s s' = State.out1s sx.
Proof.
  intros s m.
  assert (∀ r i l (s1 : S1.t unit) (out1 : unit),
            (Filter.step Stub.filter r i l s1 out1).1.1.2 = S i)
    as Hadv by reflexivity.
  assert (∀ r i l (s1 : S1.t unit) (out1 : unit) now1,
            Stub.sched !! S i = Some now1 →
            indexObs now1
            < length (S1.logIncrements (Filter.step Stub.filter r i l s1 out1).1.2))
    as Hrec.
  { intros r [|[|i]] l s1 out1 now1; simpl; intros [= <-]. simpl. lia. }
  assert (∀ r now (s : State.t unit unit),
            steppable Stub.sched s →
            steppable Stub.sched (Resampler.resample Stub.resam r now s).2)
    as Hres by (intros r now s0 Hs0; exact Hs0).
  assert (steppable Stub.sched s) as Hs.
  { split; [repeat split|]. split; [simpl; lia|].
    intros now Hin. apply list_elem_of_In in Hin.
    destruct Hin as [<-|[<-|[]]]; simpl; lia. }
  assert (is_Some (Stub.sched !! 0)) as Hfirst by (eexists; reflexivity).
  assert (2 ≤ length Stub.sched) as Hlast by (simpl; lia).
  assert (0 + 1 < 2) as Hiter by lia.
  split; [exact Hadv|]. split; [exact Hrec|]. split; [exact Hres|].
  split; [exact Hs|]. split; [exact Hfirst|]. split; [exact Hlast|].
  split; [exact Hiter|].
  exact (step_spec Stub.sched Stub.rand Stub.filter Stub.adapter Stub.resam
           Stub.ess_reduce Hadv Hrec Hres 0 0 2 Stub.world m s
           Hs Hfirst Hlast Hiter).
Defined.

End Step.

(** * Further properties *)

(** ** TreeNetworkNode: commits and returns *)

Module TreeNetworkNodeMore.

Import TreeNetworkNode.

Section Node.
Context {MPI_Comm : Type} `{Countable MPI_Comm}.

(** X1: when no removal is pending and none is called, the commit does
    what is expected of it for every sequence of [addChild] calls, on any
    node: it returns, the pending sets are empty and the asserted
    post-conditions hold, the active set is the former one with the pending
    and the added links, the return is its size, and the order of the calls
    does not matter. *)
Theorem updateChildren_adds (cs cs' : list (call MPI_Comm))
    (nd : TreeNetworkNode MPI_Comm)
    (Hold : oldcomms nd = ∅) (Hrem : removed cs = ∅) (Hperm : cs ≡ₚ cs') :
  let nd' := {| parent := parent nd;
                comms := comms nd ∪ newcomms nd ∪ added cs;
                newcomms := ∅; oldcomms := ∅ |} in
  updateChildren (run_calls cs nd)
  = Ok (Z.of_nat (size (comms nd ∪ newcomms nd ∪ added cs)), nd')
  ∧ post_conditions nd' = true
  ∧ updateChildren (run_calls cs' nd) = updateChildren (run_calls cs nd).
Proof.
  intros nd'.
  assert (∀ ds, added ds = added cs → removed ds = ∅ →
            updateChildren (run_calls ds nd)
            = Ok (Z.of_nat (size (comms nd ∪ newcomms nd ∪ added cs)), nd'))
    as Hrun.
  { intros ds Ha Hr.
    destruct (TreeNetworkNodeFacts.run_calls_fields ds nd) as (Hp & Hc & Hn & Ho).
    rewrite TreeNetworkNodeFacts.updateChildren_defined
      by (rewrite Ho, Hold, Hr; set_solver).
    rewrite Hp, Hc, Hn, Ha. unfold nd'.
    by replace (comms nd ∪ (newcomms nd ∪ added cs))
      with (comms nd ∪ newcomms nd ∪ added cs) by set_solver. }
  split; [by apply Hrun|]. split; [done|].
  rewrite (Hrun cs) by done. apply Hrun.
  - symmetry. by apply TreeNetworkNodeFacts.added_perm.
  - rewrite <- Hrem. symmetry. by apply TreeNetworkNodeFacts.removed_perm.
Qed.

(** X2: with no removal pending, a commit is idempotent: a second commit,
    with no call in between, returns the same size and leaves the node as
    the first one left it. *)
Theorem updateChildren_idempotent (nd : TreeNetworkNode MPI_Comm)
    (Hold : oldcomms nd = ∅) :
  ∃ n nd',
    updateChildren nd = Ok (n, nd') ∧ updateChildren nd' = Ok (n, nd').
Proof.
  eexists _, _. split; [by apply TreeNetworkNodeFacts.updateChildren_defined|].
  rewrite TreeNetworkNodeFacts.updateChildren_defined by done. simpl.
  by replace (comms nd ∪ newcomms nd ∪ ∅) with (comms nd ∪ newcomms nd)
    by set_solver.
Qed.

(** X3: a removal is never carried out.  [removeChild] only records the
    link, the commit is the one place where [oldcomms] is read and cleared,
    and the commit has no defined behaviour while a removal is pending: so
    after one [removeChild], or on a node with a removal pending, the commit
    is undefined whatever other calls are made before it. *)
Theorem removeChild_never_committed (comm : MPI_Comm)
    (cs cs' : list (call MPI_Comm)) (nd : TreeNetworkNode MPI_Comm) :
  updateChildren (run_calls (cs ++ RemoveChild comm :: cs') nd) = Undefined
  ∧ (oldcomms nd ≠ ∅ → updateChildren (run_calls cs nd) = Undefined).
Proof.
  split.
  - destruct (TreeNetworkNodeFacts.run_calls_fields (cs ++ RemoveChild comm :: cs') nd)
      as (_ & _ & _ & Ho).
    apply TreeNetworkNodeFacts.updateChildren_undefined. rewrite Ho.
    assert (comm ∈ removed (cs ++ RemoveChild comm :: cs')) as Hin.
    { clear. induction cs as [|[c|c] cs IH]; simpl; set_solver. }
    set_solver.
  - intros Hold.
    destruct (TreeNetworkNodeFacts.run_calls_fields cs nd) as (_ & _ & _ & Ho).
    apply TreeNetworkNodeFacts.updateChildren_undefined. rewrite Ho. set_solver.
Qed.

(** X4: the size [addChild] returns counts a link that is both active and
    pending twice: it is the number of distinct links, active or pending,
    plus the number of links that are both. *)
Theorem addChild_return (comm : MPI_Comm) (nd : TreeNetworkNode MPI_Comm) :
  fst (addChild comm nd)
  = Z.of_nat (size (comms nd ∪ newcomms nd) + size (comms nd ∩ newcomms nd)).
Proof.
  simpl. rewrite size_union_alt.
  assert (newcomms nd = newcomms nd ∖ comms nd ∪ comms nd ∩ newcomms nd) as Heq.
  { apply set_eq. intros x. destruct (decide (x ∈ comms nd)); set_solver. }
  rewrite Heq at 1. rewrite size_union by set_solver. lia.
Qed.

(** X5: adding a link a second time changes nothing of the node, and the second
    call returns one more than the first exactly when the link was not
    pending before. *)
Theorem addChild_twice (comm : MPI_Comm) (nd : TreeNetworkNode MPI_Comm) :
  let r1 := addChild comm nd in
  let r2 := addChild comm (snd r1) in
  snd r2 = snd r1
  ∧ fst r2 = (fst r1 + if decide (comm ∈ newcomms nd) then 0 else 1)%Z.
Proof.
  simpl. split.
  - f_equal. set_solver.
  - destruct (decide (comm ∈ newcomms nd)) as [Hin|Hout].
    + assert ({[comm]} ∪ newcomms nd = newcomms nd) as -> by set_solver. lia.
    + rewrite size_union by set_solver. rewrite size_singleton. lia.
Qed.

(** X6: the parent is written by [setParent] only: the commit after any
    sequence of [addChild] and [removeChild] calls, when it is defined,
    returns the same size and gives the same sets with or without an
    earlier [setParent], and the parent is the one that was set. *)
Theorem setParent_kept (comm : MPI_Comm) (cs : list (call MPI_Comm))
    (nd : TreeNetworkNode MPI_Comm) :
  updateChildren (run_calls cs (setParent comm nd))
  = (λ r : Z * TreeNetworkNode MPI_Comm, (fst r, setParent comm (snd r)))
      <$> updateChildren (run_calls cs nd).
Proof.
  destruct (TreeNetworkNodeFacts.run_calls_fields cs (setParent comm nd))
    as (Hp & Hc & Hn & Ho).
  destruct (TreeNetworkNodeFacts.run_calls_fields cs nd) as (_ & Hc0 & Hn0 & Ho0).
  simpl in *. unfold updateChildren, erase_range_of.
  rewrite Hp, Hc, Hn, Ho, Hc0, Hn0, Ho0.
  by destruct (decide (oldcomms nd ∪ removed cs = ∅)).
Qed.

End Node.

(** Two children are added, in two orders, on handles that are integers. *)
Lemma updateChildren_adds_witness :
  let cs := [AddChild 1%Z; AddChild 2%Z] in
  let cs' := [AddChild 2%Z; AddChild 1%Z] in
  let nd := @create Z _ _ in
  let nd' := {| parent := parent nd;
                comms := comms nd ∪ newcomms nd ∪ added cs;
                newcomms := ∅; oldcomms := ∅ |} in
  oldcomms nd = ∅ ∧ removed cs = ∅ ∧ cs ≡ₚ cs'
  ∧ updateChildren (run_calls cs nd)
    = Ok (Z.of_nat (size (comms nd ∪ newcomms nd ∪ added cs)), nd')
  ∧ post_conditions nd' = true
  ∧ updateChildren (run_calls cs' nd) = updateChildren (run_calls cs nd).
Proof.
  intros cs cs' nd nd'.
  assert (cs ≡ₚ cs') as Hperm by apply perm_swap.
  split; [reflexivity|]. split; [reflexivity|]. split; [exact Hperm|].
  exact (updateChildren_adds cs cs' nd eq_refl eq_refl Hperm).
Defined.

Lemma updateChildren_idempotent_witness :
  let nd := snd (addChild 2%Z (snd (addChild 1%Z (@create Z _ _)))) in
  oldcomms nd = ∅
  ∧ ∃ n nd',
      updateChildren nd = Ok (n, nd') ∧ updateChildren nd' = Ok (n, nd').
Proof.
  intros nd. split; [reflexivity|].
  exact (updateChildren_idempotent nd eq_refl).
Defined.

End TreeNetworkNodeMore.

(** ** rejuvenate: exceptions, the decision, the calls *)

Module RejuvenateMore.

(** A loop over [seq a n] carries an invariant indexed by the number of
    iterations made from its start to its end, when it returns. *)
Lemma for_each_seq_keeps {St : Type} (body : nat → St → result St)
    (I : nat → St → Prop) (n a : nat) (st st' : St) :
  I a st →
  (∀ k st st', a ≤ k < a + n → body k st = Ok st' → I k st → I (S k) st') →
  for_each body (seq a n) st = Ok st' → I (a + n) st'.
Proof.
  revert a st. induction n as [|n IH]; intros a st HI Hbody; simpl.
  - intros [= <-]. by rewrite Nat.add_0_r.
  - destruct (body a st) as [st1| |] eqn:E; simpl; try done.
    intros Hrest. replace (a + S n) with (S a + n) by lia.
    apply (IH (S a) st1); [|intros k st2 st3 Hk; apply Hbody; lia|done].
    apply (Hbody a st st1); [lia|done|done].
Qed.

Lemma proposal_trace_nil : proposal_trace [] [].
Proof. constructor. Qed.

Lemma proposal_trace_propose (p : nat) : proposal_trace [p] [CallPropose p].
Proof. repeat constructor. Qed.

Lemma proposal_trace_filter (p : nat) :
  proposal_trace [p] [CallPropose p; CallFilter p].
Proof. apply trace_filtered, trace_done. Qed.

Lemma proposal_trace_app (ps qs : list nat) (t u : list Call) :
  proposal_trace ps t → proposal_trace qs u → proposal_trace (ps ++ qs) (t ++ u).
Proof.
  intros Ht Hu. induction Ht as [|p ps t _ IH|p ps t _ IH]; simpl;
    [done|by constructor|by constructor].
Qed.

Section Rejuvenate.
Context {Random X Out In A : Type}.
Variable sched : list ScheduleElement.
Variable rand : Random.ops Random.
Variable filter : Filter.ops Random X Out In A.
Variable adapter : Adapter.ops X Out A.

Abbreviation World := (World.t Random).
Abbreviation Sampler := (Sampler.t A).
Abbreviation State := (State.t X Out).
Abbreviation S1 := (S1.t X).

Abbreviation propose_replacement := (MarginalSIR.propose_replacement sched filter).
Abbreviation accept_or_reject := (MarginalSIR.accept_or_reject rand).
Abbreviation accept_move := (MarginalSIR.accept_move rand).
Abbreviation move := (MarginalSIR.move sched rand filter).
Abbreviation rejuvenate_particle := (MarginalSIR.rejuvenate_particle sched rand filter).
Abbreviation rejuvenate := (MarginalSIR.rejuvenate sched rand filter adapter).

(** The second half of a move, on a proposal whose log-likelihood is not
    finite: nothing changes. *)
Lemma accept_move_rejects p (w : World) (s : State) (n : Z) :
  p < length (State.s1s s) → p < length (State.out1s s) →
  is_finite (S1.logLikelihood (State.s2 s)) = false →
  accept_move p (w, s, n) = Ok (w, s, n).
Proof.
  intros Hp Ho Hfin. unfold MarginalSIR.accept_move.
  destruct (lookup_lt_is_Some_2 _ _ Hp) as [s1 ->].
  destruct (lookup_lt_is_Some_2 _ _ Ho) as [out1 ->].
  cbn [defined]. rewrite !bind_Ok.
  unfold MarginalSIR.accept_or_reject. rewrite Hfin. simpl. by destruct w.
Qed.

(** X7: a [CholeskyException] or a [ParticleFilterDegeneratedException] thrown
    by [filter.propose] does not leave [rejuvenate]: the filter is not run
    on the proposal, the log-likelihood of the scratch state is set to
    [-inf], and the move is rejected, without a draw from the generator.
    What [propose] wrote before it threw stays written. *)
Theorem move_propose_throws (first last : nat) (ready : bool) (ad : A) (p : nat)
    (w : World) (s : State) (naccept : Z) (now : ScheduleElement)
    (s1 s1' s2' : S1) (out1 out2' : Out) (r : Random) (e : exception)
    (Hs1 : State.s1s s !! p = Some s1)
    (Hout1 : State.out1s s !! p = Some out1)
    (Hnow : sched !! first = Some now)
    (Hpropose :
       Filter.propose filter (World.rng w) now s1 (State.s2 s) (State.out2 s)
         (if ready then Some ad else None) = (Some e, (r, s1', s2', out2'))) :
  move first last ready ad p (w, s, naccept)
  = Ok (World.called [CallPropose p] (World.set_rng r w),
        State.set_scratch (S1.set_logLikelihood NInf s2') out2'
          (State.set_particle p s1' out1 s),
        naccept).
Proof.
  unfold MarginalSIR.move, MarginalSIR.propose_replacement.
  rewrite Hs1, Hout1, Hnow. cbn [defined]. rewrite !bind_Ok.
  rewrite Hpropose. rewrite bind_Ok.
  apply accept_move_rejects; simpl; rewrite ?length_insert;
    try (by eapply lookup_lt_Some); done.
Qed.

(** X8: an exception of either kind thrown by [filter.filter], which is run
    when the proposal has a finite log-prior, does not leave [rejuvenate]
    either: whatever log-likelihood the filter had written, it is set to
    [-inf] and the move is rejected. *)
Theorem move_filter_throws (first last : nat) (ready : bool) (ad : A) (p : nat)
    (w : World) (s : State) (naccept : Z) (now : ScheduleElement)
    (s1 s1' s2' s2'' : S1) (out1 out2' out2'' : Out) (r r' : Random)
    (e : exception)
    (Hs1 : State.s1s s !! p = Some s1)
    (Hout1 : State.out1s s !! p = Some out1)
    (Hnow : sched !! first = Some now)
    (Hpropose :
       Filter.propose filter (World.rng w) now s1 (State.s2 s) (State.out2 s)
         (if ready then Some ad else None) = (None, (r, s1', s2', out2')))
    (Hprior : is_finite (S1.logPrior s2') = true)
    (Hfilter :
       Filter.filter filter r first last s2' out2' = (Some e, (r', s2'', out2''))) :
  move first last ready ad p (w, s, naccept)
  = Ok (World.called [CallFilter p]
          (World.set_rng r' (World.called [CallPropose p] (World.set_rng r w))),
        State.set_scratch (S1.set_logLikelihood NInf s2'') out2''
          (State.set_particle p s1' out1 s),
        naccept).
Proof.
  unfold MarginalSIR.move, MarginalSIR.propose_replacement.
  rewrite Hs1, Hout1, Hnow. cbn [defined]. rewrite !bind_Ok.
  rewrite Hpropose, Hprior, Hfilter. rewrite bind_Ok.
  apply accept_move_rejects; simpl; rewrite ?length_insert;
    try (by eapply lookup_lt_Some); done.
Qed.

(** X9: a move whose log-ratio is positive (or [+inf]) is accepted whatever the
    draw [u] in [(0,1]]: [log(u) <= 0] is below the ratio. *)
Theorem accept_positive_ratio (s1 s2 : S1) (r r' : Random) (x : R)
    (H2 : is_finite (S1.logLikelihood s2) = true)
    (H1 : is_finite (S1.logLikelihood s1) = true)
    (Hu : Random.uniform rand r = (Fin x, r'))
    (Hx : (0 < x <= 1)%R)
    (Hratio : (Fin 0 <? logratio_spec s1 s2)%D = true) :
  accept_or_reject s1 s2 r = (true, r').
Proof.
  unfold MarginalSIR.accept_or_reject. rewrite H2, H1. simpl.
  rewrite Hu. unfold logratio_spec in Hratio. f_equal.
  destruct ((_ + _ + _)%D) as [y| | |]; try done.
  - simpl in Hratio. destruct (Rlt_dec 0 y) as [Hy|]; [|done].
    unfold dlog. destruct (Rlt_dec 0 x) as [_|Hn]; [|lra]. simpl.
    assert (ln x <= 0)%R as Hln.
    { rewrite <- ln_1. destruct (proj2 Hx) as [Hlt | ->]; [|lra].
      left. apply ln_increasing; lra. }
    destruct (Rlt_dec (ln x) y) as [_|Hn]; [done|lra].
  - unfold dlog. by destruct (Rlt_dec 0 x) as [_|Hn]; [|lra].
Qed.

(** X10: a move whose log-ratio is a NaN or [-inf] (both log-likelihoods being
    finite) is rejected whatever the draw; the generator is used. *)
Theorem reject_nan_ratio (s1 s2 : S1) (r : Random)
    (H2 : is_finite (S1.logLikelihood s2) = true)
    (H1 : is_finite (S1.logLikelihood s1) = true)
    (Hratio : logratio_spec s1 s2 = NaN ∨ logratio_spec s1 s2 = NInf) :
  accept_or_reject s1 s2 r = (false, (Random.uniform rand r).2).
Proof.
  unfold MarginalSIR.accept_or_reject. rewrite H2, H1. simpl.
  destruct (Random.uniform rand r) as [u r']. simpl. f_equal.
  unfold logratio_spec in Hratio.
  destruct Hratio as [-> | ->]; by destruct (dlog u).
Qed.

(** One move writes nothing on [std::cerr] and calls [filter.propose] once,
    and [filter.filter] at most once after it. *)
Lemma move_trace first last ready ad p (w w' : World) (s s' : State) (n n' : Z) :
  move first last ready ad p (w, s, n) = Ok (w', s', n') →
  World.cerr w' = World.cerr w
  ∧ ∃ t, World.calls w' = World.calls w ++ t ∧ proposal_trace [p] t.
Proof.
  unfold MarginalSIR.move, MarginalSIR.propose_replacement.
  destruct (State.s1s s !! p) as [s1|]; simpl; [|done].
  destruct (State.out1s s !! p) as [out1|]; simpl; [|done].
  destruct (sched !! first) as [now|]; simpl; [|done].
  destruct (Filter.propose _ _ _ _ _ _ _) as [e [[[r s1'] s2'] out2']].
  assert (∀ (w1 : World) (s1 : State) t,
            World.cerr w1 = World.cerr w →
            World.calls w1 = World.calls w ++ t → proposal_trace [p] t →
            accept_move p (w1, s1, n) = Ok (w', s', n') →
            World.cerr w' = World.cerr w
            ∧ ∃ t, World.calls w' = World.calls w ++ t ∧ proposal_trace [p] t)
    as Haccept.
  { intros w1 sp t Hcerr Hcalls Ht. unfold MarginalSIR.accept_move.
    destruct (State.s1s sp !! p); simpl; [|done].
    destruct (State.out1s sp !! p); simpl; [|done].
    destruct (MarginalSIR.accept_or_reject _ _ _ _) as [[|] r0];
      intros [= <- <- <-]; simpl; eauto. }
  destruct e as [e|].
  - apply (Haccept _ _ [CallPropose p]); [done|done|apply proposal_trace_propose].
  - destruct (is_finite (S1.logPrior s2')).
    + destruct (Filter.filter _ _ _ _ _ _) as [e [[r2 s2''] out2'']].
      pose proof (proposal_trace_filter p) as Ht.
      destruct e; apply (Haccept _ _ [CallPropose p; CallFilter p]); try done;
        simpl; by rewrite <- app_assoc.
    + apply (Haccept _ _ [CallPropose p]); [done|done|apply proposal_trace_propose].
Qed.

Lemma rejuvenate_particle_trace first last ready ad (nmoves : Z) p
    (w w' : World) (s s' : State) (n n' : Z) :
  rejuvenate_particle first last ready ad nmoves p (w, s, n) = Ok (w', s', n') →
  World.cerr w' = World.cerr w
  ∧ ∃ t, World.calls w' = World.calls w ++ t
         ∧ proposal_trace (replicate (Z.to_nat nmoves) p) t.
Proof.
  unfold MarginalSIR.rejuvenate_particle.
  destruct (State.s1s s !! p) as [x1|]; simpl; [|done].
  destruct (State.out1s s !! p) as [o1|]; simpl; [|done].
  intros Hloop.
  apply (for_each_seq_keeps (λ _, move first last ready ad p)
           (λ k (st : World * State * Z),
              World.cerr st.1.1 = World.cerr w
              ∧ ∃ t, World.calls st.1.1 = World.calls w ++ t
                     ∧ proposal_trace (replicate k p) t)
           (Z.to_nat nmoves) 0 (w, s, n) (w', s', n')); [| |exact Hloop].
  - split; [done|]. exists []. split; [by rewrite app_nil_r|apply proposal_trace_nil].
  - intros k [[w1 s1] n1] [[w2 s2] n2] _ Hmove [Hcerr (t & Hcalls & Ht)].
    simpl in *. apply move_trace in Hmove as [Hcerr' (u & Hcalls' & Hu)].
    split; [congruence|]. exists (t ++ u). split.
    + by rewrite Hcalls', Hcalls, app_assoc.
    + replace (p :: replicate k p) with (replicate k p ++ [p]).
      * by apply proposal_trace_app.
      * clear. induction k as [|k IH]; simpl; [done|]. by rewrite IH.
Qed.

(** The particles [rejuvenate] proposes for: each particle of the
    population [nmoves] times, in index order, after a resample on the last
    step; none without. *)
Lemma rejuvenate_trace first last (w w' : World) (m m' : Sampler) (s s' : State) :
  rejuvenate first last (w, m, s) = Ok (w', m', s') →
  World.cerr w' = World.cerr w
  ∧ ∃ t, World.calls w' = World.calls w ++ t
         ∧ proposal_trace
             (if Sampler.lastResample m
              then seq 0 (State.size s)
                     ≫= (λ p, replicate (Z.to_nat (Sampler.nmoves m)) p)
              else []) t.
Proof.
  unfold MarginalSIR.rejuvenate. destruct (Sampler.lastResample m).
  2:{ intros [= <- <- <-]. split; [done|]. exists [].
      split; [by rewrite app_nil_r|apply proposal_trace_nil]. }
  destruct (for_loop _ _ _) as [[[w1 s1] n1]| |] eqn:Hloop; simpl; try done.
  intros [= <- <- <-].
  apply (for_each_seq_keeps
           (rejuvenate_particle first last
              (Adapter.ready adapter (Sampler.adapter m)) (Sampler.adapter m)
              (Sampler.nmoves m))
           (λ k (st : World * State * Z),
              World.cerr st.1.1 = World.cerr w
              ∧ ∃ t, World.calls st.1.1 = World.calls w ++ t
                     ∧ proposal_trace
                         (seq 0 k ≫= (λ p, replicate (Z.to_nat (Sampler.nmoves m)) p))
                         t)
           (State.size s) 0 (w, s, 0%Z) (w1, s1, n1)); [| |exact Hloop].
  - split; [done|]. exists []. split; [by rewrite app_nil_r|apply proposal_trace_nil].
  - intros k [[w2 s2] n2] [[w3 s3] n3] _ Hbody [Hcerr (t & Hcalls & Ht)].
    cbn [fst snd] in *.
    apply rejuvenate_particle_trace in Hbody as [Hcerr' (u & Hcalls' & Hu)].
    split; [congruence|]. exists (t ++ u). split.
    + by rewrite Hcalls', Hcalls, app_assoc.
    + rewrite seq_S, bind_app. simpl. rewrite app_nil_r.
      by apply proposal_trace_app.
Qed.

(** X11: on a well-formed population [rejuvenate] returns, writes nothing on
    [std::cerr], and its calls of the filter are: [filter.propose] exactly
    [nmoves] times for each particle, in index order, when a resample was
    made on the last step, and not at all otherwise; [filter.filter] only
    right after a proposal, for the particle of that proposal and at most
    once; and no other member function. *)
Theorem rejuvenate_proposals first last (w : World) (m : Sampler) (s : State)
    (Hwf : State.wf s) (Hfirst : is_Some (sched !! first)) :
  ∃ w' m' s' t,
    rejuvenate first last (w, m, s) = Ok (w', m', s')
    ∧ World.cerr w' = World.cerr w
    ∧ World.calls w' = World.calls w ++ t
    ∧ proposal_trace
        (if Sampler.lastResample m
         then seq 0 (State.size s)
                ≫= (λ p, replicate (Z.to_nat (Sampler.nmoves m)) p)
         else []) t.
Proof.
  destruct (Rejuvenate.rejuvenate_total sched rand filter adapter first last w m s
              Hwf Hfirst) as (w' & rate & s' & Heq & _).
  destruct (rejuvenate_trace _ _ _ _ _ _ _ _ Heq) as (Hcerr & t & Hcalls & Ht).
  by eexists w', _, s', t.
Qed.

(** X12: after a resample, when the product [ntotal = nmoves * s.size()] is
    positive and is an [int] (at most [INT_MAX], so that the multiplication
    of the code does not overflow), [rejuvenate] on a well-formed population
    returns and the rate it sets is a number in [[0,1]]. *)
Theorem rejuvenate_rate_int first last (w : World) (m : Sampler) (s : State)
    (Hwf : State.wf s) (Hfirst : is_Some (sched !! first))
    (Hr : Sampler.lastResample m = true)
    (Hpos : (0 < Sampler.nmoves m * Z.of_nat (State.size s))%Z)
    (Hint : (Sampler.nmoves m * Z.of_nat (State.size s) ≤ INT_MAX)%Z) :
  ∃ w' m' s' (x : R),
    rejuvenate first last (w, m, s) = Ok (w', m', s')
    ∧ Sampler.lastAcceptRate m' = Fin x ∧ (0 <= x <= 1)%R.
Proof.
  by apply Rejuvenate.rejuvenate_rate_unit.
Qed.

End Rejuvenate.

(** *** Runs on the stub collaborators *)

(** A proposal that throws: the scratch slot held the log-likelihood 0. *)
Lemma move_propose_throws_witness :
  let s := Stub.pop 1 (Fin 0) (Fin 0) (Fin 0) (Fin 0) in
  MarginalSIR.move Stub.sched Stub.rand Stub2.throwing_filter 0 1 false tt 0
    (Stub.world, s, 0%Z)
  = Ok (World.called [CallPropose 0] (World.set_rng 1 Stub.world),
        State.set_scratch (S1.set_logLikelihood NInf (Stub.particle (Fin 0))) tt
          (State.set_particle 0 (Stub.particle (Fin 0)) tt s),
        0%Z).
Proof.
  intros s.
  exact (move_propose_throws Stub.sched Stub.rand Stub2.throwing_filter 0 1 false
           tt 0 Stub.world s 0%Z
           {| getTime := Fin 0; indexOutput := 0; indexObs := 0; isObserved := false |}
           (Stub.particle (Fin 0)) (Stub.particle (Fin 0)) (Stub.particle (Fin 0))
           tt tt 1 CholeskyException eq_refl eq_refl eq_refl eq_refl).
Defined.

(** A filter that degenerates after it wrote the log-likelihood 1. *)
Lemma move_filter_throws_witness :
  let s := Stub.pop 1 (Fin 0) (Fin 0) (Fin 0) (Fin 0) in
  let s2' := S1.mk (Fin 0) (Fin 0) (Fin 0) [] tt in
  MarginalSIR.move Stub.sched Stub.rand Stub2.degenerate_filter 0 1 false tt 0
    (Stub.world, s, 0%Z)
  = Ok (World.called [CallFilter 0]
          (World.set_rng 1
             (World.called [CallPropose 0] (World.set_rng 0 Stub.world))),
        State.set_scratch
          (S1.set_logLikelihood NInf (S1.set_logLikelihood (Fin 1) s2')) tt
          (State.set_particle 0 (Stub.particle (Fin 0)) tt s),
        0%Z).
Proof.
  intros s s2'.
  exact (move_filter_throws Stub.sched Stub.rand Stub2.degenerate_filter 0 1 false
           tt 0 Stub.world s 0%Z
           {| getTime := Fin 0; indexOutput := 0; indexObs := 0; isObserved := false |}
           (Stub.particle (Fin 0)) (Stub.particle (Fin 0)) s2'
           (S1.set_logLikelihood (Fin 1) s2') tt tt tt 0 1
           ParticleFilterDegeneratedException
           eq_refl eq_refl eq_refl eq_refl eq_refl eq_refl).
Defined.

(** A proposal of log-likelihood 1 against a current state of
    log-likelihood 0, the priors and proposal densities equal; the draw
    is 1. *)
Lemma accept_positive_ratio_witness :
  let s1 := Stub.particle (Fin 0) in
  let s2 := Stub.particle (Fin 1) in
  is_finite (S1.logLikelihood s2) = true
  ∧ is_finite (S1.logLikelihood s1) = true
  ∧ Random.uniform Stub.rand 0 = (Fin 1, 1)
  ∧ (0 < 1 <= 1)%R
  ∧ (Fin 0 <? logratio_spec s1 s2)%D = true
  ∧ MarginalSIR.accept_or_reject Stub.rand s1 s2 0 = (true, 1).
Proof.
  intros s1 s2.
  assert ((0 < 1 <= 1)%R) as Hx by lra.
  assert ((Fin 0 <? logratio_spec s1 s2)%D = true) as Hratio.
  { unfold logratio_spec. simpl.
    destruct (Rlt_dec 0 (1 + - 0 + (0 + - 0) + (0 + - 0))) as [_|Hn];
      [reflexivity|lra]. }
  split; [reflexivity|]. split; [reflexivity|]. split; [reflexivity|].
  split; [exact Hx|]. split; [exact Hratio|].
  exact (accept_positive_ratio Stub.rand s1 s2 0 1 1 eq_refl eq_refl eq_refl
           Hx Hratio).
Defined.

(** The current and the proposed state both of log-prior [-inf]: the
    difference of the priors is a NaN. *)
Lemma reject_nan_ratio_witness :
  let s1 : S1.t unit := S1.mk (Fin 0) NInf (Fin 0) [] tt in
  let s2 : S1.t unit := S1.mk (Fin 1) NInf (Fin 0) [] tt in
  is_finite (S1.logLikelihood s2) = true
  ∧ is_finite (S1.logLikelihood s1) = true
  ∧ (logratio_spec s1 s2 = NaN ∨ logratio_spec s1 s2 = NInf)
  ∧ MarginalSIR.accept_or_reject Stub.rand s1 s2 0
    = (false, (Random.uniform Stub.rand 0).2).
Proof.
  intros s1 s2.
  assert (logratio_spec s1 s2 = NaN ∨ logratio_spec s1 s2 = NInf) as Hratio
    by (left; reflexivity).
  split; [reflexivity|]. split; [reflexivity|]. split; [exact Hratio|].
  exact (reject_nan_ratio Stub.rand s1 s2 0 eq_refl eq_refl Hratio).
Defined.

(** Three particles, two moves each, after a resample. *)
Lemma rejuvenate_proposals_witness :
  let m := Stub.sampler 2 in
  let s := Stub.pop 3 (Fin 0) (Fin 0) (Fin 0) (Fin 0) in
  State.wf s ∧ is_Some (Stub.sched !! 0)
  ∧ ∃ w' m' s' t,
      MarginalSIR.rejuvenate Stub.sched Stub.rand Stub.filter Stub.adapter 0 1
        (Stub.world, m, s) = Ok (w', m', s')
      ∧ World.cerr w' = World.cerr Stub.world
      ∧ World.calls w' = World.calls Stub.world ++ t
      ∧ proposal_trace
          (if Sampler.lastResample m
           then seq 0 (State.size s)
                  ≫= (λ p, replicate (Z.to_nat (Sampler.nmoves m)) p)
           else []) t.
Proof.
  intros m s.
  assert (State.wf s) as Hwf by (repeat split).
  assert (is_Some (Stub.sched !! 0)) as Hfirst by (eexists; reflexivity).
  split; [exact Hwf|]. split; [exact Hfirst|].
  exact (rejuvenate_proposals Stub.sched Stub.rand Stub.filter Stub.adapter 0 1
           Stub.world m s Hwf Hfirst).
Defined.

(** Three particles, one move each, after a resample: [ntotal = 3]. *)
Lemma rejuvenate_rate_int_witness :
  let m := Stub.sampler 1 in
  let s := Stub.pop 3 (Fin 0) (Fin 0) (Fin 0) (Fin 0) in
  State.wf s ∧ is_Some (Stub.sched !! 0)
  ∧ Sampler.lastResample m = true
  ∧ (0 < Sampler.nmoves m * Z.of_nat (State.size s))%Z
  ∧ (Sampler.nmoves m * Z.of_nat (State.size s) ≤ INT_MAX)%Z
  ∧ ∃ w' m' s' (x : R),
      MarginalSIR.rejuvenate Stub.sched Stub.rand Stub.filter Stub.adapter 0 1
        (Stub.world, m, s) = Ok (w', m', s')
      ∧ Sampler.lastAcceptRate m' = Fin x ∧ (0 <= x <= 1)%R.
Proof.
  intros m s.
  assert (State.wf s) as Hwf by (repeat split).
  assert (is_Some (Stub.sched !! 0)) as Hfirst by (eexists; reflexivity).
  assert ((0 < Sampler.nmoves m * Z.of_nat (State.size s))%Z) as Hpos
    by (simpl; lia).
  assert ((Sampler.nmoves m * Z.of_nat (State.size s) ≤ INT_MAX)%Z) as Hint
    by (unfold INT_MAX; simpl; lia).
  split; [exact Hwf|]. split; [exact Hfirst|]. split; [reflexivity|].
  split; [exact Hpos|]. split; [exact Hint|].
  exact (rejuvenate_rate_int Stub.sched Stub.rand Stub.filter Stub.adapter 0 1
           Stub.world m s Hwf Hfirst eq_refl Hpos Hint).
Defined.

End RejuvenateMore.

(** ** A whole run: init, step, term, sample *)

Module Run.

Section Run.
Context {Random X Out In A IO1 : Type}.
Variable sched : list ScheduleElement.
Variable rand : Random.ops Random.
Variable filter : Filter.ops Random X Out In A.
Variable adapter : Adapter.ops X Out A.
Variable resam : Resampler.ops Random X Out.
Variable output : Output.ops X Out IO1.
Variable ess_reduce : list double → double * double.

Abbreviation World := (World.t Random).
Abbreviation Sampler := (Sampler.t A).
Abbreviation State := (State.t X Out).
Abbreviation S1 := (S1.t X).

Abbreviation init_particle := (MarginalSIR.init_particle sched filter).
Abbreviation init_particles := (MarginalSIR.init_particles sched filter).
Abbreviation init := (MarginalSIR.init sched filter output).
Abbreviation adapt := (MarginalSIR.adapt adapter).
Abbreviation resample := (MarginalSIR.resample resam).
Abbreviation rejuvenate := (MarginalSIR.rejuvenate sched rand filter adapter).
Abbreviation report := (@MarginalSIR.report Random X Out A).
Abbreviation reportT := (@MarginalSIR.reportT Random).
Abbreviation outputT := (MarginalSIR.outputT output).
Abbreviation advance_particles := (MarginalSIR.advance_particles sched filter).
Abbreviation pass := (MarginalSIR.pass sched rand filter adapter resam).
Abbreviation passes := (MarginalSIR.passes sched rand filter adapter resam).
Abbreviation finish := (MarginalSIR.finish sched ess_reduce).
Abbreviation step := (MarginalSIR.step sched rand filter adapter resam ess_reduce).
Abbreviation steps := (MarginalSIR.steps sched rand filter adapter resam ess_reduce).
Abbreviation samplePath_particle := (MarginalSIR.samplePath_particle filter).
Abbreviation term := (MarginalSIR.term filter).
Abbreviation sample :=
  (MarginalSIR.sample sched rand filter adapter resam output ess_reduce).

(** *** init *)

(** The calls [init] makes for the particles [ps]. *)
Abbreviation init_trace ps :=
  (ps ≫= (λ p : nat, [CallInit p; CallOutput0 p; CallCorrect p; CallOutput p])).

Lemma init_particles_defined first inInit (w : World) (s : State)
    (now : ScheduleElement) :
  State.wf s → sched !! first = Some now →
  ∃ w' s',
    init_particles first inInit (seq 0 (State.size s)) (w, s) = Ok (w', s')
    ∧ State.wf s' ∧ State.size s' = State.size s
    ∧ State.s2 s' = State.s2 s ∧ State.out2 s' = State.out2 s
    ∧ State.ess s' = State.ess s
    ∧ State.logLikelihood s' = State.logLikelihood s
    ∧ State.logIncrements s' = State.logIncrements s
    ∧ World.cerr w' = World.cerr w
    ∧ World.calls w' = World.calls w ++ init_trace (seq 0 (State.size s)).
Proof.
  intros Hwf Hnow.
  set (I := λ (k : nat) (ws : World * State),
    State.wf ws.2 ∧ State.size ws.2 = State.size s
    ∧ State.s2 ws.2 = State.s2 s ∧ State.out2 ws.2 = State.out2 s
    ∧ State.ess ws.2 = State.ess s
    ∧ State.logLikelihood ws.2 = State.logLikelihood s
    ∧ State.logIncrements ws.2 = State.logIncrements s
    ∧ World.cerr ws.1 = World.cerr w
    ∧ World.calls ws.1 = World.calls w ++ init_trace (seq 0 k)).
  destruct (for_loop_inv (init_particle first inInit) I (State.size s) (w, s))
    as ([w' s'] & Hloop & HI).
  - unfold I. cbn [fst snd]. split_and!; try done. simpl. by rewrite app_nil_r.
  - intros k [w1 s1] Hk (Hwf1 & Hsz & Hs2 & Ho2 & Hess & Hll & Hincs & Hcerr & Hcalls).
    cbn [fst snd] in *. destruct Hwf1 as (Hl1 & Hl2 & Hl3 & Hl4).
    destruct (lookup_lt_is_Some_2 (State.s1s s1) k) as [x1 Hx1]; [lia|].
    destruct (lookup_lt_is_Some_2 (State.out1s s1) k) as [o1 Ho1]; [lia|].
    eexists (_, _). split.
    { apply (Init.init_particle_defined sched filter first inInit k w1 s1 now x1 o1);
        try done; lia. }
    unfold I. cbn [fst snd]. split.
    { unfold State.wf. simpl. by rewrite !length_insert. }
    split_and!; try done.
    rewrite seq_S, bind_app. simpl. by rewrite Hcalls, <- app_assoc.
  - exists w', s'. unfold MarginalSIR.init_particles. unfold for_loop in Hloop.
    split; [exact Hloop|]. exact HI.
Qed.

(** X13: [init] writes the per-particle slots, [logWeights] and [ancestors], and
    nothing else of the population: the scratch slot, [ess],
    [logLikelihood] and [logIncrements] are as before, and so are [nmoves]
    and the adapter.  It writes nothing on [std::cerr], and calls the filter
    for each particle in index order, [init], [output0], [correct],
    [output] in this order.  A [rejuvenate] made right after it does
    nothing, whatever [nmoves] is. *)
Theorem init_frame (first last : nat) (inInit : In) (w : World) (m : Sampler)
    (s : State) (out : IO1) (now : ScheduleElement)
    (Hwf : State.wf s) (Hfirst : sched !! first = Some now) :
  ∃ w' m' s' out',
    init first inInit (w, m, s, out) = Ok (w', m', s', out')
    ∧ State.s2 s' = State.s2 s ∧ State.out2 s' = State.out2 s
    ∧ State.ess s' = State.ess s
    ∧ State.logLikelihood s' = State.logLikelihood s
    ∧ State.logIncrements s' = State.logIncrements s
    ∧ Sampler.nmoves m' = Sampler.nmoves m
    ∧ Sampler.adapter m' = Sampler.adapter m
    ∧ World.cerr w' = World.cerr w
    ∧ World.calls w' = World.calls w ++ init_trace (seq 0 (State.size s))
    ∧ rejuvenate first last (w', m', s') = Ok (w', m', s').
Proof.
  destruct (init_particles_defined first inInit w s now Hwf Hfirst)
    as (w' & s' & Hloop & _ & _ & Hs2 & Ho2 & Hess & Hll & Hincs & Hcerr & Hcalls).
  eexists w', _, s', _. split.
  { unfold MarginalSIR.init. rewrite Hloop, bind_Ok. done. }
  split_and!; done.
Qed.

(** *** step on an empty population *)

(** X14: [step] on a population without a particle has no defined behaviour: the
    iterator [iter1] is declared without a value and is set in the loop over
    the particles only, so the assignment [iter = iter1] after an empty loop
    reads it unset.  This is the case as soon as the resampler returns a
    well-formed population of size 0. *)
Theorem step_no_particle (fuel first iter last : nat) (w : World) (m : Sampler)
    (s : State) (now : ScheduleElement)
    (Hnow : sched !! iter = Some now) (Hfirst : is_Some (sched !! first))
    (Hwf : State.wf (Resampler.resample resam (World.rng w) now s).2)
    (Hsize : State.size (Resampler.resample resam (World.rng w) now s).2 = 0) :
  pass first iter last None (w, m, s) = Undefined
  ∧ step (S fuel) first iter last (w, m, s) = Undefined.
Proof.
  assert (pass first iter last None (w, m, s) = Undefined) as Hpass.
  { unfold MarginalSIR.pass. rewrite Hnow. cbn [defined]. rewrite bind_Ok.
    unfold MarginalSIR.resample.
    destruct (Resampler.resample resam (World.rng w) now s) as [[b r] s1].
    cbn [snd] in Hwf, Hsize.
    destruct (Rejuvenate.rejuvenate_total sched rand filter adapter first (iter + 1)
                (World.set_rng r w)
                (Sampler.mk (Sampler.adapter (adapt s m)) (Sampler.nmoves (adapt s m))
                   b (Sampler.lastAcceptRate (adapt s m))) s1 Hwf Hfirst)
      as (w2 & rate & s2 & -> & Hf).
    rewrite bind_Ok. destruct Hf as (Hsz & _). rewrite Hsz, Hsize. done. }
  split; [done|]. unfold MarginalSIR.step. cbn [MarginalSIR.passes].
  by rewrite Hpass.
Qed.

(** *** term *)

Lemma term_defined (w : World) (s : State) :
  State.wf s →
  ∃ w' s',
    term (w, s) = Ok (w', s')
    ∧ State.logLikelihood s'
      = (State.logLikelihood s
         + (logsumexp_reduce (State.logWeights s)
            - dlog (double_of_int (Z.of_nat (State.size s)))))%D
    ∧ State.wf s' ∧ State.size s' = State.size s
    ∧ State.logWeights s' = State.logWeights s
    ∧ State.ess s' = State.ess s
    ∧ State.logIncrements s' = State.logIncrements s
    ∧ World.cerr w' = World.cerr w.
Proof.
  intros (Hl1 & Hl2 & Hl3 & Hl4).
  set (l' := (State.logLikelihood s
              + (logsumexp_reduce (State.logWeights s)
                 - dlog (double_of_int (Z.of_nat (State.size s)))))%D).
  set (I := λ (k : nat) (ws : World * State),
    State.logLikelihood ws.2 = l'
    ∧ State.wf ws.2 ∧ State.size ws.2 = State.size s
    ∧ State.logWeights ws.2 = State.logWeights s
    ∧ State.ess ws.2 = State.ess s
    ∧ State.logIncrements ws.2 = State.logIncrements s
    ∧ World.cerr ws.1 = World.cerr w).
  destruct (for_loop_inv samplePath_particle I (State.size s)
              (w, State.set_logLikelihood l' s)) as ([w' s'] & Hloop & HI).
  - unfold I. cbn [fst snd]. by split_and!.
  - intros k [w1 s1] Hk (Hll & Hwf1 & Hsz & Hlw & Hess & Hincs & Hcerr).
    cbn [fst snd] in *. destruct Hwf1 as (Hk1 & Hk2 & Hk3 & Hk4).
    destruct (lookup_lt_is_Some_2 (State.s1s s1) k) as [x1 Hx1]; [lia|].
    destruct (lookup_lt_is_Some_2 (State.out1s s1) k) as [o1 Ho1]; [lia|].
    unfold MarginalSIR.samplePath_particle.
    rewrite Hx1, Ho1. cbn [defined]. rewrite !bind_Ok.
    destruct (Filter.samplePath filter (World.rng w1) x1 o1) as [[r' x1'] o1'].
    eexists (_, _). split; [done|]. unfold I. cbn [fst snd]. split; [done|]. split.
    { unfold State.wf. simpl. by rewrite !length_insert. }
    by split_and!.
  - exists w', s'. split; [exact Hloop|]. exact HI.
Qed.

(** X15: when all the log-weights are one finite value, [term] adds that value
    to [logLikelihood], whatever the number of particles: the log-sum-exp of
    [size] equal terms is the term plus [log(size)], which the correction
    [- log(size)] takes away (finite values are exact in the model). *)
Theorem term_equal_weights (w : World) (s : State) (l x : R)
    (Hwf : State.wf s) (Hsize : 0 < State.size s)
    (Hweights : State.logWeights s = replicate (State.size s) (Fin x))
    (Hll : State.logLikelihood s = Fin l) :
  ∃ w' s', term (w, s) = Ok (w', s') ∧ State.logLikelihood s' = Fin (l + x).
Proof.
  destruct (term_defined w s Hwf) as (w' & s' & Hterm & Hll' & _).
  exists w', s'. split; [done|].
  rewrite Hll', Hweights, Hll. by apply Term.finalise_equal_weights.
Qed.

Section Contracts.
(** What the collaborators are relied on for, as for C5. *)
Hypothesis step_advances : ∀ r i l (s1 : S1) (out1 : Out),
  (Filter.step filter r i l s1 out1).1.1.2 = S i.
Hypothesis step_records : ∀ r i l (s1 : S1) (out1 : Out) now1,
  sched !! S i = Some now1 →
  indexObs now1 < length (S1.logIncrements (Filter.step filter r i l s1 out1).1.2).
Hypothesis resample_steppable : ∀ r now (s : State),
  steppable sched s → steppable sched (Resampler.resample resam r now s).2.

Abbreviation pass_contract :=
  (Step.pass_defined sched rand filter adapter resam
     step_advances step_records resample_steppable).
Abbreviation passes_contract :=
  (Step.passes_spec sched rand filter adapter resam
     step_advances step_records resample_steppable).

(** One pass writes one line, the progress line of the current element. *)
Lemma pass_line first iter last (iter1 : option nat) (w : World)
    (m : Sampler) (s : State) (now now1 : ScheduleElement) :
  steppable sched s → is_Some (sched !! first) →
  sched !! iter = Some now → sched !! S iter = Some now1 →
  ∃ w' m' s' l,
    pass first iter last iter1 (w, m, s) = Ok (w', m', s', S iter)
    ∧ steppable sched s'
    ∧ World.cerr w' = World.cerr w ++ [l]
    ∧ line_header l = progress_header now.
Proof.
  intros Hs Hfirst Hnow Hnow1.
  destruct (pass_contract first iter last iter1 w m s now now1 Hs Hfirst Hnow Hnow1)
    as (w2 & m2 & s2 & w3 & s3 & Hrej & Hpass & Hcerr & _ & Hs3).
  assert (World.cerr w2 = World.cerr w) as Hcerr2'.
  { destruct (resample now (w, adapt s m, s)) as [[w0 m0] s0] eqn:Eres.
    apply RejuvenateMore.rejuvenate_trace in Hrej as [-> _].
    revert Eres. unfold MarginalSIR.resample.
    destruct (Resampler.resample resam (World.rng w) now s) as [[b r] s1].
    by intros [= <- _ _]. }
  eexists w3, m2, s3, _. split; [exact Hpass|]. split; [done|].
  split; [rewrite Hcerr; simpl; by rewrite Hcerr2'|done].
Qed.

(** The passes of one call of [step] write the progress lines of the
    elements they start from, in order. *)
Lemma passes_lines first last (fuel : nat) :
  is_Some (sched !! first) → last ≤ length sched →
  ∀ iter (iter1 : option nat) (w w' : World) (m m' : Sampler) (s s' : State) iter',
    steppable sched s → iter + 1 < last →
    passes fuel first iter last iter1 (w, m, s) = Ok (w', m', s', iter') →
    iter < iter'
    ∧ ∃ lines,
        World.cerr w' = World.cerr w ++ lines
        ∧ line_header <$> lines
          = progress_header <$> take (iter' - iter) (drop iter sched).
Proof.
  intros Hfirst Hlast. induction fuel as [|fuel IH];
    intros iter iter1 w w' m m' s s' iter' Hs Hiter; [done|].
  destruct (lookup_lt_is_Some_2 sched iter) as [now Hnow]; [lia|].
  destruct (lookup_lt_is_Some_2 sched (S iter)) as [now1 Hnow1]; [lia|].
  destruct (pass_line first iter last iter1 w m s now now1 Hs Hfirst Hnow Hnow1)
    as (w1 & m1 & s1 & l & Hpass & Hs1 & Hcerr & Hl).
  cbn [MarginalSIR.passes]. rewrite Hpass, bind_Ok.
  rewrite (Step.continue_eq sched (S iter) last now1 Hnow1), bind_Ok.
  assert (take 1 (drop iter sched) = [now]) as Hone.
  { by rewrite (drop_S _ _ _ Hnow). }
  destruct (decide (S iter + 1 = last)) as [Hend|Hmore];
    [|destruct (isObserved now1); cbn [negb]].
  - intros [= <- <- <- <-]. split; [lia|]. exists [l]. split; [done|].
    replace (S iter - iter) with 1 by lia. rewrite Hone. simpl. by rewrite Hl.
  - intros [= <- <- <- <-]. split; [lia|]. exists [l]. split; [done|].
    replace (S iter - iter) with 1 by lia. rewrite Hone. simpl. by rewrite Hl.
  - intros Hrest.
    destruct (IH (S iter) (Some (S iter)) w1 w' m1 m' s1 s' iter' Hs1)
      as (Hlt & lines & Hcerr' & Hlines); [lia|done|].
    split; [lia|]. exists (l :: lines). split.
    + rewrite Hcerr', Hcerr, <- app_assoc. done.
    + replace (iter' - iter) with (S (iter' - S iter)) by lia.
      rewrite (drop_S _ _ _ Hnow), firstn_cons, !fmap_cons. by rewrite Hl, Hlines.
Qed.

(** One call of [step] before the end of the schedule, with enough fuel. *)
Lemma step_run first iter last (w : World) (m : Sampler) (s : State) :
  steppable sched s → is_Some (sched !! first) → last ≤ length sched →
  iter + 1 < last →
  ∃ w' m' s' iter' lines,
    iter < iter' < last
    ∧ steppable sched s'
    ∧ World.cerr w' = World.cerr w ++ lines
    ∧ line_header <$> lines
      = progress_header <$> take (iter' - iter) (drop iter sched)
    ∧ ∀ fuel, last - 1 - iter ≤ fuel →
        step fuel first iter last (w, m, s) = Ok (w', m', s', iter').
Proof.
  intros Hs Hfirst Hlast Hiter.
  destruct (passes_contract first last (last - 1 - iter) Hfirst Hlast iter None w m s)
    as (w' & m' & sx & iter' & now' & Hrange & Hnow' & _ & _ & Hsx & Henough & _);
    [done|done|done|].
  destruct (passes_lines first last (iter' - iter) Hfirst Hlast iter None
              w w' m m' s sx iter' Hs Hiter) as (_ & lines & Hcerr & Hlines).
  { apply Henough. lia. }
  assert (indexObs now' < length (State.logIncrements sx)) as Hlen.
  { apply Hsx. by eapply list_elem_of_lookup_2. }
  pose proof (Step.finish_defined sched ess_reduce iter' sx now' Hnow' Hlen) as Hfin.
  eexists w', m', _, iter', lines. split; [done|]. split; [|split; [done|split; [done|]]].
  2:{ intros fuel Hfuel. unfold MarginalSIR.step.
      rewrite (Henough fuel) by lia. rewrite bind_Ok, Hfin, bind_Ok. done. }
  destruct Hsx as (Hwf & Hpos & Hobs). split; [exact Hwf|]. split; [exact Hpos|].
  intros now Hin. simpl. rewrite length_insert. by apply Hobs.
Qed.

(** X16: under the collaborator contracts, the population [step] returns is one
    on which [step] can be called again: it is well-formed, has a particle,
    and its [logIncrements] still has an element for every observation index
    of the schedule. *)
Theorem step_steppable (first iter last : nat) (w : World) (m : Sampler)
    (s : State)
    (Hs : steppable sched s) (Hfirst : is_Some (sched !! first))
    (Hlast : last ≤ length sched) (Hiter : iter + 1 < last) :
  ∃ w' m' s' iter',
    step (last - 1 - iter) first iter last (w, m, s) = Ok (w', m', s', iter')
    ∧ iter < iter' < last
    ∧ steppable sched s'.
Proof.
  destruct (step_run first iter last w m s Hs Hfirst Hlast Hiter)
    as (w' & m' & s' & iter' & lines & Hrange & Hs' & _ & _ & Hstep).
  exists w', m', s', iter'. split; [by apply Hstep|done].
Qed.

(** X17: [step] writes one progress line for each pass it makes: the lines of
    the schedule elements from [iter] up to the one before the element it
    stops at, in order, each with the output index and the time of its
    element, and nothing else on [std::cerr]. *)
Theorem step_lines (first iter last : nat) (w : World) (m : Sampler)
    (s : State)
    (Hs : steppable sched s) (Hfirst : is_Some (sched !! first))
    (Hlast : last ≤ length sched) (Hiter : iter + 1 < last) :
  ∃ w' m' s' iter' lines,
    step (last - 1 - iter) first iter last (w, m, s) = Ok (w', m', s', iter')
    ∧ World.cerr w' = World.cerr w ++ lines
    ∧ line_header <$> lines
      = progress_header <$> take (iter' - iter) (drop iter sched).
Proof.
  destruct (step_run first iter last w m s Hs Hfirst Hlast Hiter)
    as (w' & m' & s' & iter' & lines & _ & _ & Hcerr & Hlines & Hstep).
  exists w', m', s', iter', lines. split; [by apply Hstep|done].
Qed.

(** *** sample *)

(** The loop of [sample]: [step] is called until the iterator is at the
    last element, and every element before the last gets its line. *)
Lemma steps_run first last (n : nat) :
  is_Some (sched !! first) → last ≤ length sched →
  ∀ iter (w : World) (m : Sampler) (s : State),
    steppable sched s → iter + 1 ≤ last → n = last - 1 - iter →
    ∃ w' m' s' lines,
      steppable sched s'
      ∧ World.cerr w' = World.cerr w ++ lines
      ∧ line_header <$> lines
        = progress_header <$> take (last - 1 - iter) (drop iter sched)
      ∧ ∀ fuel fuel1, n ≤ fuel → n ≤ fuel1 →
          steps fuel fuel1 first iter last (w, m, s) = Ok (w', m', s', last - 1).
Proof.
  intros Hfirst Hlast. induction n as [n IH] using lt_wf_ind.
  intros iter w m s Hs Hiter Hn.
  destruct (decide (iter + 1 = last)) as [Hend|Hmore].
  - exists w, m, s, []. split; [done|]. split; [by rewrite app_nil_r|].
    split; [by replace (last - 1 - iter) with 0 by lia|].
    intros fuel fuel1 _ _. replace (last - 1) with iter by lia.
    destruct fuel; simpl; rewrite decide_False by (intros ?; done); done.
  - destruct (step_run first iter last w m s Hs Hfirst Hlast)
      as (w1 & m1 & s1 & iter' & lines1 & Hrange & Hs1 & Hcerr1 & Hlines1 & Hstep);
      [lia|].
    destruct (IH (last - 1 - iter')) with (iter := iter') (w := w1) (m := m1) (s := s1)
      as (w' & m' & s' & lines & Hs' & Hcerr & Hlines & Hsteps); [lia|done|lia|done|].
    exists w', m', s', (lines1 ++ lines). split; [done|]. split.
    { by rewrite Hcerr, Hcerr1, app_assoc. }
    split.
    { rewrite fmap_app, Hlines1, Hlines, <- fmap_app. f_equal.
      replace (drop iter' sched) with (drop (iter' - iter) (drop iter sched)).
      - rewrite take_take_drop. f_equal. lia.
      - rewrite drop_drop. f_equal. lia. }
    intros [|fuel] fuel1 Hfuel Hfuel1; [lia|].
    cbn [MarginalSIR.steps]. rewrite decide_True by done.
    rewrite (Hstep fuel1) by lia. rewrite bind_Ok. apply Hsteps; lia.
Qed.

(** X18: under the collaborator contracts, [sample] on a population [step] can
    work on, over a schedule segment [first .. last-1], returns.  On
    [std::cerr] it writes one progress line for every element before the
    last, in order, and then the line of [reportT] for the last element; the
    output is cleared once, by [init], and the final population is written
    to it once, at the end. *)
Theorem sample_run (first last : nat) (C : Z) (inInit : In) (w : World)
    (m : Sampler) (s : State) (out : IO1)
    (Hs : steppable sched s) (Hfirst : first < last)
    (Hlast : last ≤ length sched) :
  ∃ w' m' s' lines e,
    sched !! (last - 1) = Some e
    ∧ World.cerr w' = World.cerr w ++ lines
    ∧ line_header <$> lines
      = (progress_header <$> take (last - 1 - first) (drop first sched))
        ++ [(true, indexOutput e, getTime e)]
    ∧ ∀ fuel, last - 1 - first ≤ fuel →
        sample fuel first last C inInit (w, m, s, out)
        = Ok (w', m', s', Output.write output s' (Output.clear output out)).
Proof.
  destruct (lookup_lt_is_Some_2 sched first) as [now Hnow]; [lia|].
  destruct (lookup_lt_is_Some_2 sched (last - 1)) as [e He]; [lia|].
  destruct Hs as (Hwf & Hpos & Hobs).
  destruct (init_particles_defined first inInit w s now Hwf Hnow)
    as (w0 & s0 & Hinit & Hwf0 & Hsz0 & _ & _ & _ & _ & Hincs0 & Hcerr0 & _).
  assert (steppable sched s0) as Hs0.
  { split; [done|]. split; [lia|]. by rewrite Hincs0. }
  destruct (steps_run first last (last - 1 - first) (mk_is_Some _ _ Hnow) Hlast first w0
              (Sampler.mk (Sampler.adapter m) (Sampler.nmoves m) false (Fin 0)) s0)
    as (w1 & m1 & s1 & lines & Hs1 & Hcerr1 & Hlines & Hsteps); [done|lia|done|].
  destruct (term_defined w1 s1) as (w2 & s2 & Hterm & _ & _ & _ & _ & _ & _ & Hcerr2);
    [apply Hs1|].
  exists (reportT e w2), m1, s2, (lines ++ [Finished (indexOutput e) (getTime e)]), e.
  split; [done|]. split.
  { simpl. by rewrite Hcerr2, Hcerr1, Hcerr0, app_assoc. }
  split.
  { by rewrite fmap_app, Hlines. }
  intros fuel Hfuel. unfold MarginalSIR.sample, MarginalSIR.init.
  rewrite Hinit, !bind_Ok. rewrite (Hsteps fuel fuel) by done.
  rewrite bind_Ok, Hterm, bind_Ok, He. done.
Qed.

End Contracts.

End Run.

(** *** Runs on the stub collaborators *)

(** The contracts hold of the stub filter and resampler on the schedule of
    four elements. *)
Lemma stub_step_advances :
  ∀ r i l (s1 : S1.t unit) (out1 : unit),
    (Filter.step Stub.filter r i l s1 out1).1.1.2 = S i.
Proof. reflexivity. Defined.

Lemma stub_step_records :
  ∀ r i l (s1 : S1.t unit) (out1 : unit) now1,
    Stub2.sched4 !! S i = Some now1 →
    indexObs now1
    < length (S1.logIncrements (Filter.step Stub.filter r i l s1 out1).1.2).
Proof.
  intros r [|[|[|i]]] l s1 out1 now1; simpl; intros [= <-]; simpl; lia.
Defined.

Lemma stub_resample_steppable :
  ∀ r now (s : State.t unit unit),
    steppable Stub2.sched4 s →
    steppable Stub2.sched4 (Resampler.resample Stub.resam r now s).2.
Proof. intros r now s Hs. exact Hs. Defined.

Lemma stub_steppable :
  steppable Stub2.sched4 (Stub.pop 3 (Fin 0) (Fin 0) NInf (Fin 0)).
Proof.
  split; [repeat split|]. split; [simpl; lia|].
  intros now Hin. apply list_elem_of_In in Hin.
  destruct Hin as [<-|[<-|[<-|[<-|[]]]]]; simpl; lia.
Defined.

Lemma init_frame_witness :
  let s := Stub.pop 3 NInf NInf (Fin 0) (Fin 0) in
  let m := Stub.sampler 0 in
  let now := {| getTime := Fin 0; indexOutput := 0;
                indexObs := 0; isObserved := false |} in
  State.wf s ∧ Stub.sched !! 0 = Some now
  ∧ ∃ w' m' s' out',
      MarginalSIR.init Stub.sched Stub.filter Stub.output 0 tt
        (Stub.world, m, s, [tt]) = Ok (w', m', s', out')
      ∧ State.s2 s' = State.s2 s ∧ State.out2 s' = State.out2 s
      ∧ State.ess s' = State.ess s
      ∧ State.logLikelihood s' = State.logLikelihood s
      ∧ State.logIncrements s' = State.logIncrements s
      ∧ Sampler.nmoves m' = Sampler.nmoves m
      ∧ Sampler.adapter m' = Sampler.adapter m
      ∧ World.cerr w' = World.cerr Stub.world
      ∧ World.calls w'
        = World.calls Stub.world
          ++ (seq 0 (State.size s)
                ≫= (λ p : nat,
                      [CallInit p; CallOutput0 p; CallCorrect p; CallOutput p]))
      ∧ MarginalSIR.rejuvenate Stub.sched Stub.rand Stub.filter Stub.adapter 0 1
          (w', m', s') = Ok (w', m', s').
Proof.
  intros s m now.
  assert (State.wf s) as Hwf by (repeat split).
  split; [exact Hwf|]. split; [reflexivity|].
  exact (init_frame Stub.sched Stub.rand Stub.filter Stub.adapter Stub.output
           0 1 tt Stub.world m s [tt] now Hwf eq_refl).
Defined.

(** The resampler hands back a population without a particle. *)
Lemma step_no_particle_witness :
  let s := Stub.pop 0 (Fin 0) (Fin 0) (Fin 0) (Fin 0) in
  let m := Stub.sampler 1 in
  let now := {| getTime := Fin 0; indexOutput := 0;
                indexObs := 0; isObserved := false |} in
  Stub.sched !! 0 = Some now ∧ is_Some (Stub.sched !! 0)
  ∧ State.wf (Resampler.resample Stub.resam (World.rng Stub.world) now s).2
  ∧ State.size (Resampler.resample Stub.resam (World.rng Stub.world) now s).2 = 0
  ∧ MarginalSIR.pass Stub.sched Stub.rand Stub.filter Stub.adapter Stub.resam
      0 0 2 None (Stub.world, m, s) = Undefined
  ∧ MarginalSIR.step Stub.sched Stub.rand Stub.filter Stub.adapter Stub.resam
      Stub.ess_reduce 1 0 0 2 (Stub.world, m, s) = Undefined.
Proof.
  intros s m now.
  assert (is_Some (Stub.sched !! 0)) as Hfirst by (eexists; reflexivity).
  assert (State.wf (Resampler.resample Stub.resam (World.rng Stub.world) now s).2)
    as Hwf by (repeat split).
  split; [reflexivity|]. split; [exact Hfirst|]. split; [exact Hwf|].
  split; [reflexivity|].
  exact (step_no_particle Stub.sched Stub.rand Stub.filter Stub.adapter Stub.resam
           Stub.ess_reduce 0 0 0 2 Stub.world m s now eq_refl Hfirst Hwf eq_refl).
Defined.

(** Five particles of log-weight 3, the log-likelihood 7 before the call. *)
Lemma term_equal_weights_witness :
  let s := Stub.pop 5 (Fin 0) (Fin 3) (Fin 0) (Fin 7) in
  State.wf s ∧ 0 < State.size s
  ∧ State.logWeights s = replicate (State.size s) (Fin 3)
  ∧ State.logLikelihood s = Fin 7
  ∧ ∃ w' s',
      MarginalSIR.term Stub.filter (Stub.world, s) = Ok (w', s')
      ∧ State.logLikelihood s' = Fin (7 + 3).
Proof.
  intros s.
  assert (State.wf s) as Hwf by (repeat split).
  assert (0 < State.size s) as Hsize by (simpl; lia).
  split; [exact Hwf|]. split; [exact Hsize|]. split; [reflexivity|].
  split; [reflexivity|].
  exact (term_equal_weights Stub.filter Stub.world s 7 3 Hwf Hsize eq_refl eq_refl).
Defined.

(** [step] from [t0] on the schedule of four elements: two passes, up to
    the observed element [t2]. *)
Lemma step_steppable_witness :
  let s := Stub.pop 3 (Fin 0) (Fin 0) NInf (Fin 0) in
  let m := Stub.sampler 1 in
  steppable Stub2.sched4 s ∧ is_Some (Stub2.sched4 !! 0)
  ∧ 4 ≤ length Stub2.sched4 ∧ 0 + 1 < 4
  ∧ ∃ w' m' s' iter',
      MarginalSIR.step Stub2.sched4 Stub.rand Stub.filter Stub.adapter Stub.resam
        Stub.ess_reduce (4 - 1 - 0) 0 0 4 (Stub.world, m, s)
      = Ok (w', m', s', iter')
      ∧ 0 < iter' < 4
      ∧ steppable Stub2.sched4 s'.
Proof.
  intros s m.
  assert (is_Some (Stub2.sched4 !! 0)) as Hfirst by (eexists; reflexivity).
  assert (4 ≤ length Stub2.sched4) as Hlast by (simpl; lia).
  assert (0 + 1 < 4) as Hiter by lia.
  split; [exact stub_steppable|]. split; [exact Hfirst|]. split; [exact Hlast|].
  split; [exact Hiter|].
  exact (step_steppable Stub2.sched4 Stub.rand Stub.filter Stub.adapter Stub.resam
           Stub.ess_reduce stub_step_advances stub_step_records
           stub_resample_steppable 0 0 4 Stub.world m s
           stub_steppable Hfirst Hlast Hiter).
Defined.

Lemma step_lines_witness :
  let s := Stub.pop 3 (Fin 0) (Fin 0) NInf (Fin 0) in
  let m := Stub.sampler 1 in
  steppable Stub2.sched4 s ∧ is_Some (Stub2.sched4 !! 0)
  ∧ 4 ≤ length Stub2.sched4 ∧ 0 + 1 < 4
  ∧ ∃ w' m' s' iter' lines,
      MarginalSIR.step Stub2.sched4 Stub.rand Stub.filter Stub.adapter Stub.resam
        Stub.ess_reduce (4 - 1 - 0) 0 0 4 (Stub.world, m, s)
      = Ok (w', m', s', iter')
      ∧ World.cerr w' = World.cerr Stub.world ++ lines
      ∧ line_header <$> lines
        = progress_header <$> take (iter' - 0) (drop 0 Stub2.sched4).
Proof.
  intros s m.
  assert (is_Some (Stub2.sched4 !! 0)) as Hfirst by (eexists; reflexivity).
  assert (4 ≤ length Stub2.sched4) as Hlast by (simpl; lia).
  assert (0 + 1 < 4) as Hiter by lia.
  split; [exact stub_steppable|]. split; [exact Hfirst|]. split; [exact Hlast|].
  split; [exact Hiter|].
  exact (step_lines Stub2.sched4 Stub.rand Stub.filter Stub.adapter Stub.resam
           Stub.ess_reduce stub_step_advances stub_step_records
           stub_resample_steppable 0 0 4 Stub.world m s
           stub_steppable Hfirst Hlast Hiter).
Defined.

(** [sample] over the schedule of four elements. *)
Lemma sample_run_witness :
  let s := Stub.pop 3 (Fin 0) (Fin 0) NInf (Fin 0) in
  let m := Stub.sampler 1 in
  steppable Stub2.sched4 s ∧ 0 < 4 ∧ 4 ≤ length Stub2.sched4
  ∧ ∃ w' m' s' lines e,
      Stub2.sched4 !! (4 - 1) = Some e
      ∧ World.cerr w' = World.cerr Stub.world ++ lines
      ∧ line_header <$> lines
        = (progress_header <$> take (4 - 1 - 0) (drop 0 Stub2.sched4))
          ++ [(true, indexOutput e, getTime e)]
      ∧ ∀ fuel, 4 - 1 - 0 ≤ fuel →
          MarginalSIR.sample Stub2.sched4 Stub.rand Stub.filter Stub.adapter
            Stub.resam Stub.output Stub.ess_reduce fuel 0 4 3 tt
            (Stub.world, m, s, [tt])
          = Ok (w', m', s',
                Output.write Stub.output s' (Output.clear Stub.output [tt])).
Proof.
  intros s m.
  assert (0 < 4) as Hfirst by lia.
  assert (4 ≤ length Stub2.sched4) as Hlast by (simpl; lia).
  split; [exact stub_steppable|]. split; [exact Hfirst|]. split; [exact Hlast|].
  exact (sample_run Stub2.sched4 Stub.rand Stub.filter Stub.adapter Stub.resam
           Stub.output Stub.ess_reduce stub_step_advances stub_step_records
           stub_resample_steppable 0 4 3 tt Stub.world m s [tt]
           stub_steppable Hfirst Hlast).
Defined.

End Run.
